(** * go-md2man: the roff renderer of [md2man/roff.go]

    A shallow embedding of the renderer and of the part of the blackfriday
    node API it is written against, followed by the properties of the
    escaping routine, of the table column counter and of the renderer's
    cross-node state (list counters, definition-list alternation, the
    inside-list flag and the first-heading flag). *)

From Equations Require Import Equations.
From Equations.Prop Require Import Logic.
From Stdlib Require Import Strings.String Strings.Ascii Strings.Byte ZArith Lia Bool List.
From Stdlib Require Import DecimalString.
From Stdlib Require DecimalPos DecimalZ.
Import ListNotations.

Set Warnings "-register-all".

Local Open Scope string_scope.
Local Open Scope list_scope.

(** ** Go values

    A Go [string] is a [string], a [[]byte] is a [list byte].  Indices and
    lengths of a slice are natural numbers: every index the renderer forms
    is guarded by a comparison with [len], so no machine arithmetic on them
    can wrap.  A Go [int] that is incremented without such a guard is an
    integer with its 64-bit wrap-around written out. *)

Definition bytes (s : string) : list byte := list_byte_of_string s.


(** [x] as a Go [int]: reduced into [int_min .. int_max]. *)
Definition int_wrap (x : Z) : Z := (x + 2 ^ 63) mod 2 ^ 64 - 2 ^ 63.

(** [text[org:j]]. *)
Definition slice {A} (l : list A) (org j : nat) : list A :=
  firstn (j - org) (skipn org l).

(** ** The output sink

    The renderer talks to its [io.Writer] through two calls only,
    [w.Write(p)] and [io.WriteString(w, s)], and never reads it back.  The
    sink is the log of those calls, oldest first; the bytes that reach the
    stream are the concatenation of their arguments.  Return values of the
    calls are discarded by the source, and so they are here. *)

Inductive WriteCall : Type :=
| Write (p : list byte)
| WriteString (s : string).

Abbreviation Writer := (list WriteCall).

Definition payload (c : WriteCall) : list byte :=
  match c with
  | Write p => p
  | WriteString s => bytes s
  end.

(** The byte stream a log amounts to. *)
Definition written (w : Writer) : list byte := flat_map payload w.

(** The bytes that arrived through [w.Write], the calls that carry node
    data, leaving out what arrived through [io.WriteString]. *)
Definition data_written (w : Writer) : list byte :=
  flat_map (fun c => match c with Write p => p | WriteString _ => [] end) w.

(** The arguments of the [io.WriteString] calls, in order. *)
Definition markup (w : Writer) : list string :=
  flat_map (fun c => match c with Write _ => [] | WriteString s => [s] end) w.

Definition w_Write (w : Writer) (p : list byte) : Writer := w ++ [Write p].
Definition io_WriteString (w : Writer) (s : string) : Writer := w ++ [WriteString s].

(** ** The node API of blackfriday the renderer is written against *)

Module blackfriday.

(** Modelled from the spec: the node taxonomy of the external parser (§1).
    These are the types the renderer's switch names, with the three
    further types of the parser's enumeration ([Del], [HTMLBlock],
    [HTMLSpan]) that reach the switch's default branch. *)
Inductive NodeType : Type :=
| Document | BlockQuote | List | Item | Paragraph | Heading | HorizontalRule
| Emph | Strong | Del | Link | Image | Text | HTMLBlock | CodeBlock
| Softbreak | Hardbreak | Code | HTMLSpan
| Table | TableCell | TableHead | TableBody | TableRow.

Definition NodeType_eqb (a b : NodeType) : bool :=
  match a, b with
  | Document, Document | BlockQuote, BlockQuote | List, List | Item, Item
  | Paragraph, Paragraph | Heading, Heading | HorizontalRule, HorizontalRule
  | Emph, Emph | Strong, Strong | Del, Del | Link, Link | Image, Image
  | Text, Text | HTMLBlock, HTMLBlock | CodeBlock, CodeBlock
  | Softbreak, Softbreak | Hardbreak, Hardbreak | Code, Code
  | HTMLSpan, HTMLSpan | Table, Table | TableCell, TableCell
  | TableHead, TableHead | TableBody, TableBody | TableRow, TableRow => true
  | _, _ => false
  end.

(** Modelled from the spec: the traversal directives a visitor returns
    (§4.1): continue in depth-first order, skip the node's children, or
    end the whole traversal. *)
Inductive WalkStatus : Type := GoToNext | SkipChildren | Terminate.

(** Modelled from the spec: the list-kind flag of list and item nodes (§3),
    a bit set in which bit 0 says ordered and bit 1 says definition; a list
    with neither is unordered. *)
Definition ListTypeOrdered : Z := 1.
Definition ListTypeDefinition : Z := 2.

(** Modelled from the spec: the AST node (§3).  The fields are those the
    renderer reads: the type tag, the literal payload, the heading level,
    the list-kind flags, the link destination and the header flag of a
    table cell.  [Children] stands for the [FirstChild]/[Next] chain. *)
Inductive Node : Type := mkNode {
  Type_ : NodeType;
  Literal : list byte;
  Level : Z;
  ListFlags : Z;
  Destination : list byte;
  IsHeader : bool;
  Children : list Node
}.

(** A [*Node] as a visitor receives it: the node together with its
    [Parent] and [Prev] pointers, each [None] when the pointer is nil. *)
Record NodeRef : Type := {
  self : Node;
  Parent : option Node;
  Prev : option Node
}.

(** Modelled from the spec: which node types have an entering and a leaving
    visit (§4.1).  The leaf types (text, breaks, inline code, code block,
    horizontal rule, HTML) are visited once. *)
Definition isContainer (n : Node) : bool :=
  match Type_ n with
  | Document | BlockQuote | List | Item | Paragraph | Heading | Emph | Strong
  | Del | Link | Image | Table | TableHead | TableBody | TableRow | TableCell => true
  | _ => false
  end.

(** What one call of a visitor amounts to: it returns a directive, or it
    panics; either way it leaves a state behind. *)
Inductive Step (S : Type) : Type :=
| Return (s : S) (status : WalkStatus)
| Panic (s : S).
Arguments Return {S} s status.
Arguments Panic {S} s.

(** How the traversal of a subtree ends: it ran to its end, a visitor
    returned [Terminate], or a visitor panicked. *)
Inductive Outcome (S : Type) : Type :=
| Finished (s : S)
| Stopped (s : S)
| Crashed (s : S).
Arguments Finished {S} s.
Arguments Stopped {S} s.
Arguments Crashed {S} s.

Definition final {S} (o : Outcome S) : S :=
  match o with Finished s | Stopped s | Crashed s => s end.

(** The state a call of a visitor leaves behind. *)
Definition state_of {S} (s : Step S) : S :=
  match s with Return s _ | Panic s => s end.

Section Walk.

Context {S : Type}.
Variable visitor : S -> NodeRef -> bool -> Step S.

(** Modelled from the spec: the depth-first traversal that drives a visitor
    (§1, §2, §6).  A node is visited entering; unless the visitor said
    [SkipChildren], or the node is a leaf, its children follow in order and
    then the node is visited leaving.  [Terminate] ends everything. *)
Fixpoint walk (parent prev : option Node) (n : Node) (s : S) {struct n} : Outcome S :=
  let cur := {| self := n; Parent := parent; Prev := prev |} in
  match visitor s cur true with
  | Panic s1 => Crashed s1
  | Return s1 Terminate => Stopped s1
  | Return s1 SkipChildren => Finished s1
  | Return s1 GoToNext =>
      if isContainer n then
        match
          (fix siblings (prev : option Node) (cs : list Node) (s : S) {struct cs}
             : Outcome S :=
             match cs with
             | [] => Finished s
             | c :: cs' =>
                 match walk (Some n) prev c s with
                 | Finished s' => siblings (Some c) cs' s'
                 | o => o
                 end
             end) None (Children n) s1
        with
        | Finished s2 =>
            match visitor s2 cur false with
            | Panic s3 => Crashed s3
            | Return s3 Terminate => Stopped s3
            | Return s3 _ => Finished s3
            end
        | o => o
        end
      else Finished s1
  end.

(** The children [cs] of [parent], the first of them preceded by [prev]. *)
Fixpoint walk_siblings (parent : Node) (prev : option Node) (cs : list Node) (s : S)
  : Outcome S :=
  match cs with
  | [] => Finished s
  | c :: cs' =>
      match walk (Some parent) prev c s with
      | Finished s' => walk_siblings parent (Some c) cs' s'
      | o => o
      end
  end.

(** [func (n *Node) Walk(visitor NodeVisitor)] *)
Definition Walk (n : NodeRef) (s : S) : Outcome S :=
  walk (Parent n) (Prev n) (self n) s.

End Walk.

End blackfriday.

Module md2man.

(** [func out(w io.Writer, output string)] *)
Definition out (w : Writer) (output : string) : Writer := io_WriteString w output.

(** ** Character escaping *)

(** [func needsBackslash(c byte) bool]: the range loop over
    [[]byte("-_&\\~")] returns at the first equal byte. *)
Definition needsBackslash (c : byte) : bool :=
  existsb (fun r => Byte.eqb c r) (bytes "-_&\~").

(** [len(text) >= 1 && (text[0] == '\'' || text[0] == '.')] *)
Definition initialControl (text : list byte) : bool :=
  match nth_error text 0 with
  | Some c => Byte.eqb c "'"%byte || Byte.eqb c "."%byte
  | None => false
  end.

(** The inner loop of [escapeSpecialChars],
    [for i < len(text) && !needsBackslash(text[i]) { i++ }]:
    the value of [i] when it exits. *)
Equations? copyNormal (text : list byte) (i : nat) : nat by wf (length text - i) lt :=
  copyNormal text i with inspect (nth_error text i) := {
    | exist _ None _ => i
    | exist _ (Some c) Hc with inspect (needsBackslash c) := {
        | exist _ true _ => i
        | exist _ false _ => copyNormal text (S i) } }.
Proof.
  assert (i < length text) by (apply nth_error_Some; congruence). lia.
Qed.

(** The body of the outer loop of [escapeSpecialChars] from index [i] on:
    the prefix for an initial apostrophe or period, the run of normal
    characters, and either the [break] at the end of the text or the
    escaped character followed by the next iteration at [i+1]. *)
Equations? escapeFrom (text : list byte) (i : nat) (w : Writer) : Writer
  by wf (length text - i) lt :=
  escapeFrom text i w with inspect (i <? length text)%nat := {
    | exist _ false _ => w
    | exist _ true Hi with inspect (nth_error text (copyNormal text i)) := {
        | exist _ None _ =>
            let w := if initialControl text then io_WriteString w "\&" else w in
            let org := i in
            let i := copyNormal text i in
            if (org <? i)%nat then w_Write w (slice text org i) else w
        | exist _ (Some c) Hc =>
            let w := if initialControl text then io_WriteString w "\&" else w in
            let org := i in
            let i := copyNormal text i in
            let w := if (org <? i)%nat then w_Write w (slice text org i) else w in
            let w := w_Write w ["\"%byte] in
            let w := w_Write w [c] in
            escapeFrom text (S i) w } }.
Proof.
  subst i org.
  assert (copyNormal text i0 < length text) by (apply nth_error_Some; congruence).
  assert (i0 <= copyNormal text i0) by (clear; funelim (copyNormal text i0); lia).
  lia.
Qed.

(** [func escapeSpecialChars(w io.Writer, text []byte)] *)
Definition escapeSpecialChars (w : Writer) (text : list byte) : Writer :=
  escapeFrom text 0 w.

(** ** The renderer *)

(** [type roffRenderer struct] *)
Record roffRenderer : Type := {
  extensions : Z;
  ListCounters : list Z;
  firstHeader : bool;
  defineTerm : bool;
  inList : bool
}.

Definition set_ListCounters (r : roffRenderer) (l : list Z) : roffRenderer :=
  {| extensions := extensions r; ListCounters := l; firstHeader := firstHeader r;
     defineTerm := defineTerm r; inList := inList r |}.

Definition set_firstHeader (r : roffRenderer) (b : bool) : roffRenderer :=
  {| extensions := extensions r; ListCounters := ListCounters r; firstHeader := b;
     defineTerm := defineTerm r; inList := inList r |}.

Definition set_defineTerm (r : roffRenderer) (b : bool) : roffRenderer :=
  {| extensions := extensions r; ListCounters := ListCounters r;
     firstHeader := firstHeader r; defineTerm := b; inList := inList r |}.

Definition set_inList (r : roffRenderer) (b : bool) : roffRenderer :=
  {| extensions := extensions r; ListCounters := ListCounters r;
     firstHeader := firstHeader r; defineTerm := defineTerm r; inList := b |}.

Definition nl : string := String "010"%char EmptyString.
Definition tab : string := String "009"%char EmptyString.
Definition dquote : string := String "034"%char EmptyString.

Definition titleHeader : string := ".TH ".
Definition topLevelHeader : string := Eval cbv in (nl ++ nl ++ ".SH ")%string.
Definition secondLevelHdr : string := Eval cbv in (nl ++ ".SH ")%string.
Definition otherHeader : string := Eval cbv in (nl ++ ".SS ")%string.
Definition crTag : string := nl.
Definition emphTag : string := "\fI".
Definition emphCloseTag : string := "\fP".
Definition strongTag : string := "\fB".
Definition strongCloseTag : string := "\fP".
Definition breakTag : string := Eval cbv in (nl ++ ".br" ++ nl)%string.
Definition paraTag : string := Eval cbv in (nl ++ ".PP" ++ nl)%string.
Definition hruleTag : string :=
  Eval cbv in (nl ++ ".ti 0" ++ nl ++ "\l'\n(.lu'" ++ nl)%string.
Definition linkTag : string := Eval cbv in (nl ++ "\[la]")%string.
Definition linkCloseTag : string := "\[ra]".
Definition codespanTag : string := "\fB\fC".
Definition codespanCloseTag : string := "\fR".
Definition codeTag : string :=
  Eval cbv in (nl ++ ".PP" ++ nl ++ ".RS" ++ nl ++ nl ++ ".nf" ++ nl)%string.
Definition codeCloseTag : string := Eval cbv in (nl ++ ".fi" ++ nl ++ ".RE" ++ nl)%string.
Definition quoteTag : string := Eval cbv in (nl ++ ".PP" ++ nl ++ ".RS" ++ nl)%string.
Definition quoteCloseTag : string := Eval cbv in (nl ++ ".RE" ++ nl)%string.
Definition listTag : string := Eval cbv in (nl ++ ".RS" ++ nl)%string.
Definition listCloseTag : string := Eval cbv in (nl ++ ".RE" ++ nl)%string.
Definition arglistTag : string := Eval cbv in (nl ++ ".TP" ++ nl)%string.
Definition tableStart : string := Eval cbv in (nl ++ ".TS" ++ nl ++ "allbox;" ++ nl)%string.
Definition tableEnd : string := Eval cbv in (nl ++ ".TE" ++ nl)%string.
Definition tableCellStart : string := Eval cbv in (nl ++ "T{" ++ nl)%string.
Definition tableCellEnd : string := Eval cbv in (nl ++ "T}" ++ nl)%string.

(** [count] copies of [s] in a row. *)
Fixpoint repeat_string (s : string) (count : nat) : string :=
  match count with
  | O => ""
  | S count => (s ++ repeat_string s count)%string
  end.

(** The [%3d] verb: the decimal numeral, padded with spaces on the left to
    three characters. *)
Definition fmt_3d (n : Z) : string :=
  let s := NilZero.string_of_int (Z.to_int n) in
  (repeat_string " " (3 - String.length s) ++ s)%string.

(** [fmt.Sprintf(".IP \"%3d.\" 5\n", n)] *)
Definition itemTag (n : Z) : string :=
  (".IP " ++ dquote ++ fmt_3d n ++ "." ++ dquote ++ " 5" ++ nl)%string.

(** [strings.Repeat(s, count)], which panics on a negative count. *)
Definition strings_Repeat (s : string) (count : Z) : option string :=
  if (count <? 0)%Z then None
  else Some (repeat_string s (Z.to_nat count)).

(** [flags&bit != 0] *)
Definition has_flag (flags bit : Z) : bool := negb (Z.land flags bit =? 0)%Z.

(** The visitor inside [countColumns]; [columns] is the variable the
    closure captures.  A case of the switch that does not return falls to
    the [return blackfriday.Terminate] after it. *)
Definition countVisitor (columns : Z) (node : blackfriday.NodeRef) (entering : bool)
  : blackfriday.Step Z :=
  let after_switch (columns : Z) := blackfriday.Return columns blackfriday.Terminate in
  match blackfriday.Type_ (blackfriday.self node) with
  | blackfriday.TableRow =>
      if negb entering then blackfriday.Return columns blackfriday.Terminate
      else after_switch columns
  | blackfriday.TableCell => after_switch (int_wrap (columns + 1))
  | _ => blackfriday.Return columns blackfriday.GoToNext
  end.

(** [func countColumns(node *blackfriday.Node) int] *)
Definition countColumns (node : blackfriday.NodeRef) : Z :=
  blackfriday.final (blackfriday.Walk countVisitor node 0%Z).

Abbreviation State := (roffRenderer * Writer)%type.

(** [func (r *roffRenderer) RenderNode(w io.Writer, node *blackfriday.Node,
    entering bool) blackfriday.WalkStatus].  The renderer behind [r] and the
    sink behind [w] are passed in and handed back; [Panic] is a nil
    dereference or an index out of range, with the state it leaves. *)
Definition RenderNode (st : State) (node : blackfriday.NodeRef) (entering : bool)
  : blackfriday.Step State :=
  let '(r, w) := st in
  let n := blackfriday.self node in
  let next (r : roffRenderer) (w : Writer) :=
    blackfriday.Return (r, w) blackfriday.GoToNext in
  match blackfriday.Type_ n with
  | blackfriday.Text =>
      match blackfriday.Parent node with
      | None => blackfriday.Panic (r, w)
      | Some parent =>
          let '(start, end_) :=
            if blackfriday.NodeType_eqb (blackfriday.Type_ parent) blackfriday.TableCell
            then if (30 <? length (blackfriday.Literal n))%nat
                 then (tableCellStart, tableCellEnd) else ("", "")
            else ("", "") in
          let w := out w start in
          let w := escapeSpecialChars w (blackfriday.Literal n) in
          let w := out w end_ in
          next r w
      end
  | blackfriday.Softbreak => next r (out w crTag)
  | blackfriday.Hardbreak => next r (out w breakTag)
  | blackfriday.Emph =>
      if entering then next r (out w emphTag) else next r (out w emphCloseTag)
  | blackfriday.Strong =>
      if entering then next r (out w strongTag) else next r (out w strongCloseTag)
  | blackfriday.Link =>
      if entering
      then next r (out w (linkTag ++ string_of_list_byte (blackfriday.Destination n))%string)
      else next r (out w linkCloseTag)
  | blackfriday.Image => blackfriday.Return (r, w) blackfriday.SkipChildren
  | blackfriday.Code =>
      let w := out w codespanTag in
      let w := escapeSpecialChars w (blackfriday.Literal n) in
      let w := out w codespanCloseTag in
      next r w
  | blackfriday.Document => next r w
  | blackfriday.Paragraph =>
      if inList r then blackfriday.Return (r, w) blackfriday.GoToNext
      else if entering then next r (out w paraTag) else next r (out w crTag)
  | blackfriday.BlockQuote =>
      if entering then next r (out w quoteTag) else next r (out w quoteCloseTag)
  | blackfriday.Heading =>
      if entering then
        if (blackfriday.Level n =? 1)%Z then
          if negb (firstHeader r)
          then let w := out w titleHeader in
               let r := set_firstHeader r true in
               next r w
          else next r (out w topLevelHeader)
        else if (blackfriday.Level n =? 2)%Z then next r (out w secondLevelHdr)
        else next r (out w otherHeader)
      else next r w
  | blackfriday.HorizontalRule => next r (out w hruleTag)
  | blackfriday.List =>
      let '(openTag, closeTag) :=
        if has_flag (blackfriday.ListFlags n) blackfriday.ListTypeDefinition
        then ("", "") else (listTag, listCloseTag) in
      if entering then
        let r := set_inList r true in
        let r :=
          if has_flag (blackfriday.ListFlags n) blackfriday.ListTypeOrdered
          then set_ListCounters r (ListCounters r ++ [1%Z]) else r in
        next r (out w openTag)
      else
        if has_flag (blackfriday.ListFlags n) blackfriday.ListTypeOrdered then
          match ListCounters r with
          | [] => blackfriday.Panic (r, w)
          | _ :: _ =>
              let r := set_ListCounters r (removelast (ListCounters r)) in
              let w := out w closeTag in
              next (set_inList r false) w
          end
        else
          let w := out w closeTag in
          next (set_inList r false) w
  | blackfriday.Item =>
      if entering then
        if has_flag (blackfriday.ListFlags n) blackfriday.ListTypeOrdered then
          match ListCounters r with
          | [] => blackfriday.Panic (r, w)
          | _ :: _ =>
              let top := last (ListCounters r) 0%Z in
              let w := out w (itemTag top) in
              let r := set_ListCounters r
                         (removelast (ListCounters r) ++ [int_wrap (top + 1)]) in
              next r w
          end
        else if has_flag (blackfriday.ListFlags n) blackfriday.ListTypeDefinition then
          if negb (defineTerm r)
          then let w := out w arglistTag in
               next (set_defineTerm r true) w
          else next (set_defineTerm r false) w
        else next r (out w (".IP \(bu 2" ++ nl)%string)
      else next r (out w nl)
  | blackfriday.CodeBlock =>
      let w := out w codeTag in
      let w := escapeSpecialChars w (blackfriday.Literal n) in
      let w := out w codeCloseTag in
      next r w
  | blackfriday.Table =>
      if entering then
        let w := out w tableStart in
        let columns := countColumns node in
        match strings_Repeat "l " columns with
        | None => blackfriday.Panic (r, w)
        | Some format =>
            let w := out w (format ++ nl)%string in
            let w := out w (format ++ "." ++ nl)%string in
            next r w
        end
      else next r (out w tableEnd)
  | blackfriday.TableCell =>
      let '(start, end_) :=
        if blackfriday.IsHeader n then (codespanTag, codespanCloseTag) else ("", "") in
      if entering then
        match blackfriday.Prev node with
        | None => blackfriday.Panic (r, w)
        | Some prev =>
            if blackfriday.NodeType_eqb (blackfriday.Type_ prev) blackfriday.TableCell
            then next r (out w (tab ++ start)%string)
            else next r w
        end
      else next r (out w end_)
  | blackfriday.TableHead => next r w
  | blackfriday.TableBody => blackfriday.Return (r, w) blackfriday.GoToNext
  | blackfriday.TableRow => next r (out w nl)
  | _ => next r w
  end.

(** [func (r *roffRenderer) GetExtensions() blackfriday.Extensions] *)
Definition GetExtensions (r : roffRenderer) : Z := extensions r.

(** [func (r *roffRenderer) RenderHeader(w io.Writer, ast *blackfriday.Node)] *)
Definition RenderHeader (w : Writer) (ast : blackfriday.Node) : Writer :=
  io_WriteString w (".nh" ++ nl)%string.

(** [func (r *roffRenderer) RenderFooter(w io.Writer, ast *blackfriday.Node)] *)
Definition RenderFooter (w : Writer) (ast : blackfriday.Node) : Writer := w.

Section Construction.

(** The extension flags of blackfriday that the constructor ors together. *)
Variables NoIntraEmphasis Tables FencedCode SpaceHeadings Footnotes Titleblock
  DefinitionLists : Z.

(** [func NewRoffRenderer() *roffRenderer] *)
Definition NewRoffRenderer : roffRenderer :=
  let extensions := 0%Z in
  let extensions := Z.lor extensions NoIntraEmphasis in
  let extensions := Z.lor extensions Tables in
  let extensions := Z.lor extensions FencedCode in
  let extensions := Z.lor extensions SpaceHeadings in
  let extensions := Z.lor extensions Footnotes in
  let extensions := Z.lor extensions Titleblock in
  let extensions := Z.lor extensions DefinitionLists in
  {| extensions := extensions; ListCounters := []; firstHeader := false;
     defineTerm := false; inList := false |}.

End Construction.

(** Modelled from the spec: one render of a document (§2, §6): the header,
    then one depth-first traversal of the tree from its root with
    [RenderNode] as the visitor, then the footer. *)
Definition Render (r : roffRenderer) (ast : blackfriday.Node)
  : blackfriday.Outcome State :=
  let w := RenderHeader [] ast in
  let root := {| blackfriday.self := ast; blackfriday.Parent := None;
                 blackfriday.Prev := None |} in
  match blackfriday.Walk RenderNode root (r, w) with
  | blackfriday.Finished (r, w) => blackfriday.Finished (r, RenderFooter w ast)
  | blackfriday.Stopped (r, w) => blackfriday.Stopped (r, RenderFooter w ast)
  | blackfriday.Crashed st => blackfriday.Crashed st
  end.

Import blackfriday.

(** ** Vocabulary of the properties *)

(** *** Escaping *)

Definition is_nil {A} (l : list A) : bool :=
  match l with [] => true | _ :: _ => false end.

(** What escaping makes of one byte. *)
Definition escape_byte (c : byte) : list byte :=
  if needsBackslash c then ["\"%byte; c] else [c].

Definition normal (c : byte) : bool := negb (needsBackslash c).

Definition special : list byte := bytes "-_&\~".

(** One iteration's own writes before the escaped character: the prefix
    and the run. *)
Definition iteration_head (text : list byte) (i : nat) (w : Writer) : Writer :=
  let w := if initialControl text then io_WriteString w "\&" else w in
  if (i <? copyNormal text i)%nat
  then w_Write w (slice text i (copyNormal text i)) else w.

(** The byte stream of the escaping routine, written out: [p] is what the
    routine writes at the start of each iteration of its outer loop, and an
    iteration starts at the first byte and after every escaped byte that is
    not the last one. *)
Fixpoint escaped_from (p : list byte) (text : list byte) : list byte :=
  match text with
  | [] => []
  | c :: rest =>
      if needsBackslash c
      then ["\"%byte; c] ++ (if is_nil rest then [] else p) ++ escaped_from p rest
      else c :: escaped_from p rest
  end.

Definition escaped (text : list byte) : list byte :=
  let p := if initialControl text then bytes "\&" else [] in
  (if is_nil text then [] else p) ++ escaped_from p text.

(** *** The sink *)

(** [st] with the log [w] put before its own. *)
Definition onto {A} (w : Writer) (st : A * Writer) : A * Writer :=
  (fst st, w ++ snd st).

Definition step_onto (w : Writer) (s : Step State) : Step State :=
  match s with
  | Return st status => Return (onto w st) status
  | Panic st => Panic (onto w st)
  end.

Definition outcome_onto (w : Writer) (o : Outcome State) : Outcome State :=
  match o with
  | Finished st => Finished (onto w st)
  | Stopped st => Stopped (onto w st)
  | Crashed st => Crashed (onto w st)
  end.

(** The calls of a log that carry at least one byte. *)
Definition visible (w : Writer) : Writer :=
  filter (fun c => negb (is_nil (payload c))) w.

(** *** Headings *)

(** The markers a level-1 heading can emit, as they appear among the
    [io.WriteString] calls of a log. *)
Definition is_h1_marker (s : string) : bool :=
  (s =? titleHeader)%string || (s =? topLevelHeader)%string.

Definition h1_markup (w : Writer) : list string := filter is_h1_marker (markup w).

(** Nothing, or the title marker followed by section markers only. *)
Definition title_then_sections (l : list string) : bool :=
  match l with
  | [] => true
  | m :: rest => (m =? titleHeader)%string && forallb (String.eqb topLevelHeader) rest
  end.

(** The first-heading flag agrees with the heading markers written so far. *)
Definition headings_inv (st : State) : Prop :=
  title_then_sections (h1_markup (snd st)) = true /\
  firstHeader (fst st) = negb (is_nil (h1_markup (snd st))).

(** The state after a sequence of visits, whatever traversal produced it. *)
Definition after_visits (visits : list (NodeRef * bool)) (st : State) : State :=
  fold_left (fun st v => state_of (RenderNode st (fst v) (snd v))) visits st.

(** The visits that enter a level-1 heading. *)
Definition enters_h1 (v : NodeRef * bool) : bool :=
  NodeType_eqb (Type_ (self (fst v))) Heading && snd v
  && (Level (self (fst v)) =? 1)%Z.

(** The level-1 markers that [k] entries into level-1 headings write when
    the first-heading flag is [seen] before them: the first of them the
    title marker unless the flag is set, every other one the section
    marker. *)
Definition h1_markers (seen : bool) (k : nat) : list string :=
  match k with
  | O => []
  | S k' => (if seen then topLevelHeader else titleHeader) :: repeat topLevelHeader k'
  end.

(** The visits of a traversal of [n] with [RenderNode] that no panic cuts
    short, in their order: the node entering, then, unless it is an image
    or a leaf, its children in order and the node leaving. *)
Fixpoint visits_of (parent prev : option Node) (n : Node) {struct n}
  : list (NodeRef * bool) :=
  let cur := {| self := n; Parent := parent; Prev := prev |} in
  if NodeType_eqb (Type_ n) Image || negb (isContainer n) then [(cur, true)]
  else
    (cur, true)
      :: (fix siblings (prev : option Node) (cs : list Node) {struct cs}
            : list (NodeRef * bool) :=
            match cs with
            | [] => []
            | c :: cs' => visits_of (Some n) prev c ++ siblings (Some c) cs'
            end) None (Children n)
      ++ [(cur, false)].

Fixpoint visits_of_siblings (parent : Node) (prev : option Node) (cs : list Node)
  : list (NodeRef * bool) :=
  match cs with
  | [] => []
  | c :: cs' => visits_of (Some parent) prev c ++ visits_of_siblings parent (Some c) cs'
  end.

(** The visits a traversal makes are an initial part of [visits_of], the
    whole of it when the traversal runs to its end. *)
Definition makes_visits (all : list (NodeRef * bool)) (st : State) (o : Outcome State)
  : Prop :=
  exists done rest,
    all = done ++ rest /\ final o = after_visits done st /\
    match o with
    | Finished _ => rest = []
    | Stopped _ => False
    | Crashed _ => True
    end.

(** *** Lists *)

(** Content the renderer walks through without touching the counters of the
    lists around it: no item outside a list, no table cell, and under every
    list only items that carry the list's own ordered bit. *)
Fixpoint well_formed (n : Node) : bool :=
  match Type_ n with
  | Item | TableCell => false
  | Image => true
  | List =>
      forallb (fun c =>
                 NodeType_eqb (Type_ c) Item
                 && Bool.eqb (has_flag (ListFlags c) ListTypeOrdered)
                             (has_flag (ListFlags n) ListTypeOrdered)
                 && forallb well_formed (Children c))
              (Children n)
  | _ => forallb well_formed (Children n)
  end.

(** Content shaped as the parser shapes it: no item outside a list, and
    under every list only items that carry the list's own ordered bit.
    Unlike [well_formed] content it may hold tables, at whose cells the
    renderer can panic. *)
Fixpoint list_shaped (n : Node) : bool :=
  match Type_ n with
  | Item => false
  | Image => true
  | List =>
      forallb (fun c =>
                 NodeType_eqb (Type_ c) Item
                 && Bool.eqb (has_flag (ListFlags c) ListTypeOrdered)
                             (has_flag (ListFlags n) ListTypeOrdered)
                 && forallb list_shaped (Children c))
              (Children n)
  | _ => forallb list_shaped (Children n)
  end.

(** An item of an ordered list: an item node that carries the ordered bit,
    with content so shaped. *)
Definition ordered_item (c : Node) : bool :=
  NodeType_eqb (Type_ c) Item
  && has_flag (ListFlags c) ListTypeOrdered
  && forallb list_shaped (Children c).

(** The tags a list node opens and closes with. *)
Definition openTag (flags : Z) : string :=
  if has_flag flags ListTypeDefinition then "" else listTag.

Definition closeTag (flags : Z) : string :=
  if has_flag flags ListTypeDefinition then "" else listCloseTag.

(** The renderer after entering a list with [flags], and after leaving it. *)
Definition enter_list (flags : Z) (r : roffRenderer) : roffRenderer :=
  if has_flag flags ListTypeOrdered
  then set_ListCounters (set_inList r true) (ListCounters r ++ [1%Z])
  else set_inList r true.

Definition leave_list (flags : Z) (r : roffRenderer) : roffRenderer :=
  set_inList (if has_flag flags ListTypeOrdered
              then set_ListCounters r (removelast (ListCounters r)) else r) false.

(** Walking [n] from any state ends normally and leaves the counters as
    they were. *)
Definition keeps_counters (n : Node) : Prop :=
  forall (p : Node) (prev : option Node) (r : roffRenderer) (w : Writer),
  exists r' w',
    walk RenderNode (Some p) prev n (r, w) = Finished (r', w') /\
    ListCounters r' = ListCounters r.

Definition counters_kept (n : Node) : Prop :=
  (well_formed n = true -> keeps_counters n) /\
  (forallb well_formed (Children n) = true -> Forall keeps_counters (Children n)).



(** Walking the item [n] of an ordered list whose counter stands at [c]
    writes the marker with [c], then the content, then a newline, and
    leaves the counter at [c + 1] (as a Go int). *)
Definition counts_item (n : Node) : Prop :=
  forall (parent prev : option Node) (r : roffRenderer) (w : Writer)
         (outer : list Z) (c : Z),
  ListCounters r = outer ++ [c] ->
  exists r1 r2 body,
    ListCounters r1 = outer ++ [int_wrap (c + 1)] /\
    walk_siblings RenderNode n None (Children n) (r1, []) = Finished (r2, body) /\
    ListCounters r2 = outer ++ [int_wrap (c + 1)] /\
    walk RenderNode parent prev n (r, w) =
    Finished (r2, w ++ [WriteString (itemTag c)] ++ body ++ [WriteString nl]).






(** [s] without its leading spaces. *)
Fixpoint strip_spaces (s : string) : string :=
  match s with
  | String c rest => if Ascii.eqb c " " then strip_spaces rest else s
  | EmptyString => EmptyString
  end.

(** [s] without the prefix [p], if it starts with it. *)
Fixpoint strip_prefix (p s : string) : option string :=
  match p, s with
  | EmptyString, _ => Some s
  | String a p', String b s' => if Ascii.eqb a b then strip_prefix p' s' else None
  | String _ _, EmptyString => None
  end.

(** The characters of [s] before its first period, and the rest of [s]
    from that period on. *)
Fixpoint until_period (s : string) : string * string :=
  match s with
  | EmptyString => (EmptyString, EmptyString)
  | String c rest =>
      if Ascii.eqb c "."
      then (EmptyString, s)
      else let (field, tail) := until_period rest in (String c field, tail)
  end.

(** The number an item marker shows.  The marker reads [.IP "], then a
    field of at least three characters, then [." 5] and a newline; the
    field is a decimal numeral with spaces before it, and the number is
    the one the numeral denotes. *)
Definition marker_number (s : string) : option Z :=
  match strip_prefix (".IP " ++ dquote) s with
  | None => None
  | Some rest =>
      let (field, tail) := until_period rest in
      if (tail =? "." ++ dquote ++ " 5" ++ nl)%string
         && (3 <=? String.length field)%nat
      then option_map Z.of_int (NilZero.int_of_string (strip_spaces field))
      else None
  end.

(** *** Reading escaped bytes back *)

(** The bytes a reader that knows the backslash convention takes from an
    escaped stream: the byte after a backslash, and every other byte. *)
Fixpoint unescape (l : list byte) : list byte :=
  match l with
  | [] => []
  | c :: rest =>
      if Byte.eqb c "\"
      then match rest with
           | [] => []
           | c' :: rest' => c' :: unescape rest'
           end
      else c :: unescape rest
  end.

(** No byte of the escape set stands bare in [l]: each one is the second
    byte of a pair that a backslash opens. *)
Fixpoint no_bare_special (l : list byte) : bool :=
  match l with
  | [] => true
  | c :: rest =>
      if Byte.eqb c "\"
      then match rest with
           | [] => false
           | _ :: rest' => no_bare_special rest'
           end
      else negb (needsBackslash c) && no_bare_special rest
  end.

(** *** Panics *)

Definition is_none {A} (o : option A) : bool :=
  match o with None => true | Some _ => false end.

(** The visits of a node of a named type at which [RenderNode] panics: a
    text node without a parent, entering a table cell without a previous
    sibling, and leaving an ordered list or entering an item of one while
    no counter is on the stack. *)
Definition panics (r : roffRenderer) (cur : NodeRef) (entering : bool) : bool :=
  match Type_ (self cur) with
  | Text => is_none (Parent cur)
  | TableCell => entering && is_none (Prev cur)
  | List =>
      negb entering && has_flag (ListFlags (self cur)) ListTypeOrdered
      && is_nil (ListCounters r)
  | Item =>
      entering && has_flag (ListFlags (self cur)) ListTypeOrdered
      && is_nil (ListCounters r)
  | _ => false
  end.

(** *** The term flag of definition lists *)

(** The visits that flip the term flag: entering an item that carries the
    definition bit and not the ordered bit. *)
Definition flips_term (v : NodeRef * bool) : bool :=
  NodeType_eqb (Type_ (self (fst v))) Item && snd v
  && negb (has_flag (ListFlags (self (fst v))) ListTypeOrdered)
  && has_flag (ListFlags (self (fst v))) ListTypeDefinition.

(** *** Indentation *)

(** What a call of [io.WriteString] does to the depth of roff's relative
    indentation: the tags that open a list, a block quote or a code block
    hold one [.RS] request, the tags that close them one [.RE]. *)
Definition indent_change (s : string) : Z :=
  if (s =? listTag)%string then 1
  else if (s =? quoteTag)%string then 1
  else if (s =? codeTag)%string then 1
  else if (s =? listCloseTag)%string then (-1)
  else if (s =? codeCloseTag)%string then (-1)
  else 0.

(** The depth a log leaves the indentation at. *)
Definition indent (w : Writer) : Z :=
  fold_right Z.add 0%Z (map indent_change (markup w)).

(** The [.RS] requests entering [n] writes, which leaving it takes back. *)
Definition opens (n : Node) : Z :=
  match Type_ n with
  | BlockQuote => 1
  | List => if has_flag (ListFlags n) ListTypeDefinition then 0 else 1
  | _ => 0
  end.

(** The indentation after a traversal, against the indentation before it. *)
Definition indent_kept (w : Writer) (o : Outcome State) : Prop :=
  match o with
  | Finished st => indent (snd st) = indent w
  | Stopped st | Crashed st => (indent w <= indent (snd st))%Z
  end.

(** *** Paragraphs in lists *)

(** No list node in the subtree of [n]. *)
Fixpoint no_list (n : Node) : bool :=
  negb (NodeType_eqb (Type_ n) List) && forallb no_list (Children n).

(** How many times a log holds the paragraph tag: the [io.WriteString]
    calls whose argument is [paraTag], the tag the [Paragraph] case writes.
    The tags of a code block and of a block quote begin with the same
    [.PP] request and are not counted here. *)
Definition paragraph_breaks (w : Writer) : nat :=
  count_occ string_dec (markup w) paraTag.

(** The inside-list flag is set in [st'] and [st'] holds the paragraph tag
    as many times as [st]. *)
Definition stays_in_list (st st' : State) : Prop :=
  inList (fst st') = true /\
  paragraph_breaks (snd st') = paragraph_breaks (snd st).

(** ** Sample documents *)

Definition node (t : NodeType) (cs : list Node) : Node := mkNode t [] 0 0 [] false cs.

Definition text_of (s : string) : Node := mkNode Text (bytes s) 0 0 [] false [].

Definition paragraph (s : string) : Node := node Paragraph [text_of s].

Definition list_of (flags : Z) (items : list Node) : Node :=
  mkNode List [] 0 flags [] false items.

Definition item_of (flags : Z) (cs : list Node) : Node :=
  mkNode Item [] 0 flags [] false cs.

Definition cell (header : bool) (s : string) : Node :=
  mkNode TableCell [] 0 0 [] header [text_of s].

(** A node whose [Parent] and [Prev] are nil. *)
Definition root (n : Node) : NodeRef := {| self := n; Parent := None; Prev := None |}.

(** A table with a header row and two body rows of three cells each. *)
Definition three_columns : Node :=
  node Table
    [node TableHead [node TableRow [cell true "a"; cell true "b"; cell true "c"]];
     node TableBody [node TableRow [cell false "1"; cell false "2"; cell false "3"];
                     node TableRow [cell false "4"; cell false "5"; cell false "6"]]].

(** A bullet list whose first item holds a nested bullet list:
    [* a], [  * b], [* c]. *)
Definition nested_bullets : Node :=
  node Document
    [list_of 0 [item_of 0 [paragraph "a"; list_of 0 [item_of 0 [paragraph "b"]]];
                item_of 0 [paragraph "c"]]].

(** A definition list of three items (a term with two definitions), a
    paragraph, and a definition list of two terms with one definition each. *)
Definition two_definition_lists : Node :=
  node Document
    [list_of ListTypeDefinition
       [item_of ListTypeDefinition [text_of "term0"];
        item_of ListTypeDefinition [text_of "def0a"];
        item_of ListTypeDefinition [text_of "def0b"]];
     paragraph "p";
     list_of ListTypeDefinition
       [item_of ListTypeDefinition [text_of "term1"];
        item_of ListTypeDefinition [text_of "def1"];
        item_of ListTypeDefinition [text_of "term2"];
        item_of ListTypeDefinition [text_of "def2"]]].


(** An ordered list of three items, the second holding a table. *)
Definition ordered_with_table : Node :=
  list_of ListTypeOrdered
    [item_of ListTypeOrdered [paragraph "one"];
     item_of ListTypeOrdered [paragraph "two"; three_columns];
     item_of ListTypeOrdered [paragraph "three"]].

(** A document that starts with a level-2 heading, followed by two level-1
    headings. *)
Definition h2_then_h1 : Node :=
  node Document
    [mkNode Heading [] 2 0 [] false [text_of "a"];
     mkNode Heading [] 1 0 [] false [text_of "b"];
     mkNode Heading [] 1 0 [] false [text_of "c"]].


(** The document of the spec's round-trip scenario: a title, a paragraph
    with bold and emphasised words, and an ordered list of two items. *)
Definition scenario : Node :=
  node Document
    [mkNode Heading [] 1 0 [] false [text_of "Title"];
     node Paragraph [text_of "Some "; node Strong [text_of "bold"]; text_of " and ";
                     node Emph [text_of "em"]; text_of " text."];
     list_of ListTypeOrdered
       [item_of ListTypeOrdered [paragraph "one"];
        item_of ListTypeOrdered [paragraph "two"]]].

(** * Properties *)

(** ** The escaping routine *)

Example escape_plain :
  escapeSpecialChars [] (bytes "a-b") =
  [Write (bytes "a"); Write (bytes "\"); Write (bytes "-"); Write (bytes "b")].
Proof. reflexivity. Qed.

Example escape_dot :
  escapeSpecialChars [] (bytes ".-a") =
  [WriteString "\&"; Write (bytes "."); Write (bytes "\"); Write (bytes "-");
   WriteString "\&"; Write (bytes "a")].
Proof. reflexivity. Qed.

Lemma copyNormal_ge (text : list byte) (i : nat) : i <= copyNormal text i.
Proof.
  funelim (copyNormal text i); lia.
Qed.

Lemma data_written_app (w1 w2 : Writer) :
  data_written (w1 ++ w2) = data_written w1 ++ data_written w2.
Proof. apply flat_map_app. Qed.

Lemma written_app (w1 w2 : Writer) : written (w1 ++ w2) = written w1 ++ written w2.
Proof. apply flat_map_app. Qed.

Lemma markup_app (w1 w2 : Writer) : markup (w1 ++ w2) = markup w1 ++ markup w2.
Proof. apply flat_map_app. Qed.

Lemma slice_nil {A} (l : list A) (i : nat) : slice l i i = [].
Proof. unfold slice. rewrite Nat.sub_diag. reflexivity. Qed.

Lemma skipn_nth_error {A} (l : list A) (i : nat) (c : A) :
  nth_error l i = Some c -> skipn i l = c :: skipn (S i) l.
Proof.
  revert i. induction l as [|a l IH]; intros [|i] H; simpl in *; try discriminate.
  - congruence.
  - rewrite (IH i H). reflexivity.
Qed.

Lemma slice_cons {A} (l : list A) (i j : nat) (c : A) :
  nth_error l i = Some c -> i < j -> slice l i j = c :: slice l (S i) j.
Proof.
  intros H Hij. unfold slice. rewrite (skipn_nth_error _ _ _ H).
  replace (j - i) with (S (j - S i)) by lia. reflexivity.
Qed.

Lemma skipn_slice {A} (l : list A) (i j : nat) :
  i <= j -> skipn i l = slice l i j ++ skipn j l.
Proof.
  intros Hij. unfold slice.
  replace (skipn j l) with (skipn (j - i) (skipn i l)).
  - symmetry. apply firstn_skipn.
  - rewrite skipn_skipn. f_equal. lia.
Qed.

Lemma copyNormal_run (text : list byte) (i : nat) :
  forallb normal (slice text i (copyNormal text i)) = true.
Proof.
  funelim (copyNormal text i); try (rewrite slice_nil; reflexivity).
  rewrite (slice_cons _ _ _ _ Hc) by (pose proof (copyNormal_ge text (S i)); lia).
  simpl. unfold normal at 1. rewrite e. assumption.
Qed.

Lemma copyNormal_stop (text : list byte) (i : nat) (c : byte) :
  nth_error text (copyNormal text i) = Some c -> needsBackslash c = true.
Proof.
  funelim (copyNormal text i); intros Hn; try congruence.
  auto.
Qed.

Lemma copyNormal_all_from (text : list byte) (i : nat) :
  forallb normal text = true -> i <= length text -> copyNormal text i = length text.
Proof.
  funelim (copyNormal text i); intros Hall Hi.
  - pose proof (proj1 (nth_error_None text i) e). lia.
  - exfalso. pose proof (nth_error_In _ _ Hc) as Hin.
    rewrite forallb_forall in Hall. apply Hall in Hin. unfold normal in Hin.
    rewrite e in Hin. discriminate.
  - apply H; [assumption|]. apply Nat.le_succ_l. apply nth_error_Some. congruence.
Qed.

Lemma escape_run (run : list byte) :
  forallb normal run = true -> flat_map escape_byte run = run.
Proof.
  induction run as [|c run IH]; simpl; [reflexivity|].
  intros H. apply andb_prop in H as [Hc Hr]. unfold escape_byte, normal in *.
  destruct (needsBackslash c); [discriminate|]. simpl. now rewrite IH.
Qed.

Lemma escape_slice_skipn (text : list byte) (i : nat) :
  flat_map escape_byte (skipn i text) =
  slice text i (copyNormal text i) ++
  flat_map escape_byte (skipn (copyNormal text i) text).
Proof.
  rewrite (skipn_slice text i (copyNormal text i) (copyNormal_ge text i)) at 1.
  rewrite flat_map_app, (escape_run _ (copyNormal_run text i)). reflexivity.
Qed.

Lemma data_written_run (w : Writer) (text : list byte) (i j : nat) :
  data_written (if (i <? j)%nat then w_Write w (slice text i j) else w) =
  data_written w ++ slice text i j.
Proof.
  destruct (i <? j)%nat eqn:Hij.
  - unfold w_Write. rewrite data_written_app. simpl. now rewrite app_nil_r.
  - apply Nat.ltb_ge in Hij. unfold slice.
    replace (j - i) with 0 by lia. simpl. now rewrite app_nil_r.
Qed.

Lemma data_written_prefix (w : Writer) (b : bool) (s : string) :
  data_written (if b then io_WriteString w s else w) = data_written w.
Proof.
  destruct b; [|reflexivity]. unfold io_WriteString.
  rewrite data_written_app. simpl. now rewrite app_nil_r.
Qed.

Lemma escapeFrom_data (text : list byte) (i : nat) (w : Writer) :
  data_written (escapeFrom text i w) =
  data_written w ++ flat_map escape_byte (skipn i text).
Proof.
  funelim (escapeFrom text i w).
  - pose proof (proj1 (Nat.ltb_ge _ _) e). rewrite skipn_all2 by lia.
    simpl. now rewrite app_nil_r.
  - rewrite H. unfold w_Write at 1 2. rewrite !data_written_app.
    rewrite data_written_run, data_written_prefix. simpl.
    rewrite (escape_slice_skipn text i), (skipn_nth_error _ _ _ Hc). simpl.
    unfold escape_byte at 2. rewrite (copyNormal_stop _ _ _ Hc).
    rewrite <- !app_assoc. reflexivity.
  - rewrite data_written_run, data_written_prefix.
    rewrite (escape_slice_skipn text i).
    pose proof (proj1 (nth_error_None _ _) e).
    rewrite (skipn_all2 text) by lia. simpl. now rewrite app_nil_r.
Qed.

Lemma markup_run (w : Writer) (text : list byte) (i j : nat) :
  markup (if (i <? j)%nat then w_Write w (slice text i j) else w) = markup w.
Proof.
  destruct (i <? j)%nat; [|reflexivity]. unfold w_Write.
  rewrite markup_app. simpl. now rewrite app_nil_r.
Qed.

Lemma markup_Write (w : Writer) (p : list byte) : markup (w_Write w p) = markup w.
Proof. unfold w_Write. rewrite markup_app. simpl. now rewrite app_nil_r. Qed.

Lemma escapeFrom_markup (text : list byte) (i : nat) (w : Writer) :
  exists n, markup (escapeFrom text i w) =
            markup w ++ repeat "\&" (if initialControl text then n else 0).
Proof.
  funelim (escapeFrom text i w).
  - exists 0. destruct (initialControl text); simpl; now rewrite app_nil_r.
  - destruct H as [n H]. rewrite H, !markup_Write, markup_run.
    destruct (initialControl text).
    + exists (S n). unfold io_WriteString. rewrite markup_app, <- app_assoc. reflexivity.
    + exists 0. reflexivity.
  - rewrite markup_run. destruct (initialControl text).
    + exists 1. unfold io_WriteString. now rewrite markup_app.
    + exists 0. simpl. now rewrite app_nil_r.
Qed.

(** The outer loop unfolded once. *)
Lemma escapeFrom_eq (text : list byte) (i : nat) (w : Writer) :
  escapeFrom text i w =
  if (i <? length text)%nat then
    match nth_error text (copyNormal text i) with
    | None => iteration_head text i w
    | Some c =>
        escapeFrom text (S (copyNormal text i))
          (w_Write (w_Write (iteration_head text i w) ["\"%byte]) [c])
    end
  else w.
Proof.
  funelim (escapeFrom text i w).
  - rewrite e. reflexivity.
  - rewrite Hi, Hc. reflexivity.
  - rewrite Hi, e. reflexivity.
Qed.

Lemma iteration_head_app (text : list byte) (i : nat) (w w0 : Writer) :
  iteration_head text i (w ++ w0) = w ++ iteration_head text i w0.
Proof.
  unfold iteration_head, io_WriteString, w_Write.
  destruct (initialControl text), (i <? copyNormal text i)%nat;
    rewrite <- ?app_assoc; reflexivity.
Qed.

Lemma escapeFrom_app_gen (text : list byte) (i : nat) (w0 : Writer) :
  forall w, escapeFrom text i (w ++ w0) = w ++ escapeFrom text i w0.
Proof.
  funelim (escapeFrom text i w0); intros w'.
  - rewrite escapeFrom_eq, e. reflexivity.
  - rewrite escapeFrom_eq, Hi, Hc. fold (iteration_head text i w).
    rewrite iteration_head_app. unfold iteration_head. cbv zeta.
    rewrite <- H. f_equal. unfold w_Write. rewrite <- !app_assoc. reflexivity.
  - rewrite escapeFrom_eq, Hi, e. fold (iteration_head text i w).
    apply iteration_head_app.
Qed.

Lemma escapeSpecialChars_app (w : Writer) (text : list byte) :
  escapeSpecialChars w text = w ++ escapeSpecialChars [] text.
Proof.
  unfold escapeSpecialChars. rewrite <- (app_nil_r w) at 1.
  apply escapeFrom_app_gen.
Qed.

Lemma escapeSpecialChars_normal (text : list byte) :
  forallb normal text = true ->
  escapeSpecialChars [] text =
  match text with
  | [] => []
  | _ :: _ => (if initialControl text then [WriteString "\&"] else []) ++ [Write text]
  end.
Proof.
  intros Hall. unfold escapeSpecialChars. rewrite escapeFrom_eq.
  unfold iteration_head. rewrite (copyNormal_all_from text 0 Hall) by lia.
  destruct text as [|c text]; [reflexivity|].
  change (0 <? length (c :: text))%nat with true. cbv iota.
  rewrite (proj2 (nth_error_None (c :: text) (length (c :: text)))) by lia.
  unfold slice. rewrite Nat.sub_0_r, firstn_all.
  unfold w_Write, io_WriteString. destruct (initialControl (c :: text)); reflexivity.
Qed.

Lemma needsBackslash_special (c : byte) :
  needsBackslash c = true <-> In c special.
Proof.
  unfold needsBackslash. rewrite existsb_exists. fold special. split.
  - intros [r [Hin Heq]]. apply Byte.byte_dec_bl in Heq. now subst.
  - intros Hin. exists c. split; [assumption|]. apply Byte.byte_dec_lb. reflexivity.
Qed.

(** *** The byte stream of the escaping routine *)

Lemma escaped_from_run (p run rest : list byte) :
  forallb normal run = true ->
  escaped_from p (run ++ rest) = run ++ escaped_from p rest.
Proof.
  induction run as [|c run IH]; simpl; [reflexivity|]. intros H.
  apply andb_prop in H as [Hc Hr]. unfold normal in Hc.
  destruct (needsBackslash c); [discriminate|]. now rewrite IH.
Qed.

Lemma written_iteration_head (text : list byte) (i : nat) (w : Writer) :
  written (iteration_head text i w) =
  written w ++ (if initialControl text then bytes "\&" else [])
            ++ slice text i (copyNormal text i).
Proof.
  unfold iteration_head, io_WriteString, w_Write.
  destruct (i <? copyNormal text i)%nat eqn:Hij.
  - destruct (initialControl text); rewrite !written_app; simpl;
      rewrite ?app_nil_r, <- ?app_assoc; reflexivity.
  - apply Nat.ltb_ge in Hij. unfold slice. replace (copyNormal text i - i) with 0 by lia.
    destruct (initialControl text); rewrite ?written_app; simpl;
      rewrite ?app_nil_r; reflexivity.
Qed.

Lemma escapeFrom_written (text : list byte) (i : nat) (w : Writer) :
  written (escapeFrom text i w) =
  written w ++
  if (i <? length text)%nat
  then (if initialControl text then bytes "\&" else [])
       ++ escaped_from (if initialControl text then bytes "\&" else []) (skipn i text)
  else [].
Proof.
  funelim (escapeFrom text i w).
  - rewrite e. now rewrite app_nil_r.
  - rewrite H, Hi. fold (iteration_head text i w). unfold w_Write.
    rewrite !written_app, written_iteration_head.
    change (written [Write ["\"%byte]]) with ["\"%byte].
    change (written [Write [c]]) with [c].
    rewrite (skipn_slice text i (copyNormal text i) (copyNormal_ge text i)).
    rewrite escaped_from_run by apply copyNormal_run.
    rewrite (skipn_nth_error _ _ _ Hc). cbn [escaped_from].
    rewrite (copyNormal_stop _ _ _ Hc).
    assert (Hrest : (if (S (copyNormal text i) <? length text)%nat
                     then (if initialControl text then bytes "\&" else [])
                          ++ escaped_from (if initialControl text then bytes "\&" else [])
                               (skipn (S (copyNormal text i)) text)
                     else []) =
                    (if is_nil (skipn (S (copyNormal text i)) text) then []
                     else if initialControl text then bytes "\&" else [])
                    ++ escaped_from (if initialControl text then bytes "\&" else [])
                         (skipn (S (copyNormal text i)) text)).
    { destruct (S (copyNormal text i) <? length text)%nat eqn:Hlt.
      - apply Nat.ltb_lt in Hlt.
        destruct (skipn (S (copyNormal text i)) text) eqn:Hsk; [|reflexivity].
        exfalso. apply (f_equal (@length byte)) in Hsk.
        rewrite length_skipn in Hsk. simpl in Hsk. lia.
      - apply Nat.ltb_ge in Hlt. rewrite skipn_all2 by lia. reflexivity. }
    rewrite Hrest, <- !app_assoc. reflexivity.
  - rewrite Hi. fold (iteration_head text i w). rewrite written_iteration_head.
    rewrite (skipn_slice text i (copyNormal text i) (copyNormal_ge text i)).
    rewrite escaped_from_run by apply copyNormal_run.
    pose proof (proj1 (nth_error_None _ _) e).
    rewrite (skipn_all2 text) by lia. simpl. rewrite ?app_nil_r. reflexivity.
Qed.

Lemma escapeSpecialChars_written (text : list byte) :
  written (escapeSpecialChars [] text) = escaped text.
Proof.
  unfold escapeSpecialChars, escaped. rewrite escapeFrom_written. simpl.
  destruct text; reflexivity.
Qed.

(** *** The claims about escaping *)

(** C2.  On the text [.-a], whose first byte is a period, the escaping
    routine writes the zero-width prefix twice: once before any other
    output and once more after the escaped [-], at the start of the second
    iteration of its outer loop. *)
Theorem escape_prefix_written_again :
  escapeSpecialChars [] (bytes ".-a") =
    [WriteString "\&"; Write (bytes "."); Write (bytes "\"); Write (bytes "-");
     WriteString "\&"; Write (bytes "a")] /\
  written (escapeSpecialChars [] (bytes ".-a")) = bytes "\&.\-\&a" /\
  count_occ string_dec (markup (escapeSpecialChars [] (bytes ".-a"))) "\&" = 2.
Proof. repeat split; reflexivity. Qed.

(** C6, as the claim states it, fails on the one-byte text [.]: it holds no
    byte of the escape set, and what is written is not the text. *)
Lemma escape_not_identity_on_period :
  forallb normal (bytes ".") = true /\
  written (escapeSpecialChars [] (bytes ".")) <> bytes ".".
Proof. split; [reflexivity|]. vm_compute. discriminate. Qed.

(** C6, amended.  On a text that holds no byte of the escape set the
    escaping routine writes the text unchanged, preceded by the zero-width
    prefix when the first byte is an apostrophe or a period. *)
Theorem escape_identity_without_specials (text : list byte) :
  forallb normal text = true ->
  written (escapeSpecialChars [] text) =
  (if initialControl text then bytes "\&" else []) ++ text.
Proof.
  intros Hall. rewrite (escapeSpecialChars_normal text Hall).
  destruct text as [|c text]; [reflexivity|].
  destruct (initialControl (c :: text)); simpl; now rewrite app_nil_r.
Qed.

Lemma escape_identity_witness :
  written (escapeSpecialChars [] (bytes "'tis a man page")) =
  (if initialControl (bytes "'tis a man page") then bytes "\&" else [])
  ++ bytes "'tis a man page".
Proof. apply escape_identity_without_specials. reflexivity. Defined.

Lemma escaped_from_no_prefix (text : list byte) :
  escaped_from [] text = flat_map escape_byte text.
Proof.
  induction text as [|c text IH]; [reflexivity|].
  cbn [escaped_from flat_map]. unfold escape_byte at 1.
  destruct (needsBackslash c), (is_nil text); rewrite IH; reflexivity.
Qed.

(** C7.  The escape set is exactly the five bytes [-], [_], [&], [\] and
    [~]; the bytes the routine hands to [w.Write] are the text with each
    byte of the escape set preceded by one backslash and every other byte
    as it is; whatever else it writes is the zero-width prefix, which it
    writes only for a text whose first byte is an apostrophe or a period;
    so the byte stream of a text that starts otherwise is the text with one
    backslash before each byte of the escape set, and in general it is
    [escaped text]. *)
Theorem escape_each_special_once (text : list byte) :
  (forall c : byte, needsBackslash c = true <-> In c special) /\
  special = ["-"; "_"; "&"; "\"; "~"]%byte /\
  data_written (escapeSpecialChars [] text) = flat_map escape_byte text /\
  (exists n, markup (escapeSpecialChars [] text) =
             repeat "\&" (if initialControl text then n else 0)) /\
  written (escapeSpecialChars [] text) = escaped text /\
  (if initialControl text then True
   else written (escapeSpecialChars [] text) = flat_map escape_byte text).
Proof.
  split; [exact needsBackslash_special|]. split; [reflexivity|].
  split; [|split; [|split]].
  - unfold escapeSpecialChars. rewrite escapeFrom_data. reflexivity.
  - unfold escapeSpecialChars. destruct (escapeFrom_markup text 0 []) as [n Hn].
    exists n. exact Hn.
  - apply escapeSpecialChars_written.
  - destruct (initialControl text) eqn:Hi; [exact I|].
    rewrite escapeSpecialChars_written. unfold escaped. rewrite Hi.
    destruct (is_nil text); apply escaped_from_no_prefix.
Qed.

(** ** The traversal *)

(** [walk] unfolded once, with its inner loop named. *)
Lemma walk_eq {S} (visitor : S -> NodeRef -> bool -> Step S)
      (parent prev : option Node) (n : Node) (s : S) :
  walk visitor parent prev n s =
  let cur := {| self := n; Parent := parent; Prev := prev |} in
  match visitor s cur true with
  | Panic s1 => Crashed s1
  | Return s1 Terminate => Stopped s1
  | Return s1 SkipChildren => Finished s1
  | Return s1 GoToNext =>
      if isContainer n then
        match walk_siblings visitor n None (Children n) s1 with
        | Finished s2 =>
            match visitor s2 cur false with
            | Panic s3 => Crashed s3
            | Return s3 Terminate => Stopped s3
            | Return s3 _ => Finished s3
            end
        | o => o
        end
      else Finished s1
  end.
Proof.
  destruct n as [t lit lvl flags dest hdr cs]. cbn -[isContainer].
  destruct (visitor s _ true) as [s1 [| |]|s1]; try reflexivity.
  destruct (isContainer _); [|reflexivity].
  assert (E : forall prev0 s0,
    (fix siblings (prev1 : option Node) (cs0 : list Node) (s2 : S) {struct cs0} : Outcome S :=
       match cs0 with
       | [] => Finished s2
       | c :: cs' =>
           match walk visitor (Some (mkNode t lit lvl flags dest hdr cs)) prev1 c s2 with
           | Finished s' => siblings (Some c) cs' s'
           | Stopped s3 => Stopped s3
           | Crashed s3 => Crashed s3
           end
       end) prev0 cs s0 =
    walk_siblings visitor (mkNode t lit lvl flags dest hdr cs) prev0 cs s0).
  { generalize (mkNode t lit lvl flags dest hdr cs) as p.
    induction cs as [|c cs IH]; intros p prev0 s0; [reflexivity|].
    simpl. destruct (walk visitor (Some p) prev0 c s0); try reflexivity. apply IH. }
  rewrite E. reflexivity.
Qed.

(** Induction on a node, with the property at hand for all its children. *)
Section NodeInduction.
Variable P : Node -> Prop.
Hypothesis step : forall t lit lvl flags dest hdr cs,
  Forall P cs -> P (mkNode t lit lvl flags dest hdr cs).

Fixpoint Node_nested_ind (n : Node) : P n :=
  match n with
  | mkNode t lit lvl flags dest hdr cs =>
      step t lit lvl flags dest hdr cs
        ((fix all (l : list Node) : Forall P l :=
            match l with
            | [] => Forall_nil P
            | c :: l' => Forall_cons c (Node_nested_ind c) (all l')
            end) cs)
  end.
End NodeInduction.

(** A reflexive and transitive relation that every visit respects holds
    between the state a traversal starts in and the state it ends in,
    however it ends. *)
Section WalkInvariant.
Context {S : Type}.
Variable visitor : S -> NodeRef -> bool -> Step S.
Variable R : S -> S -> Prop.
Hypothesis R_refl : forall s, R s s.
Hypothesis R_trans : forall a b c, R a b -> R b c -> R a c.
Hypothesis R_step : forall s cur e, R s (state_of (visitor s cur e)).

Lemma walk_siblings_related (parent : Node) (cs : list Node) :
  Forall (fun c => forall parent prev s, R s (final (walk visitor parent prev c s))) cs ->
  forall prev s, R s (final (walk_siblings visitor parent prev cs s)).
Proof.
  induction 1 as [|c cs Hc _ IH]; intros prev s; simpl; [apply R_refl|].
  specialize (Hc (Some parent) prev s).
  destruct (walk visitor (Some parent) prev c s) as [s'| |]; try exact Hc.
  eapply R_trans; [exact Hc | apply IH].
Qed.

Lemma walk_related (n : Node) :
  forall parent prev s, R s (final (walk visitor parent prev n s)).
Proof.
  induction n as [t lit lvl flags dest hdr cs IH] using Node_nested_ind.
  intros parent prev s. rewrite walk_eq. cbv zeta.
  change (Children (mkNode t lit lvl flags dest hdr cs)) with cs.
  generalize (walk_siblings_related (mkNode t lit lvl flags dest hdr cs) cs IH None).
  generalize (R_step s {| self := mkNode t lit lvl flags dest hdr cs;
                          Parent := parent; Prev := prev |} true).
  generalize (fun s2 => R_step s2 {| self := mkNode t lit lvl flags dest hdr cs;
                          Parent := parent; Prev := prev |} false).
  generalize (mkNode t lit lvl flags dest hdr cs) as n. intros n H3 H1 H2.
  destruct (visitor s _ true) as [s1 [| |]|s1]; simpl in H1; try exact H1.
  destruct (isContainer n); [|exact H1].
  specialize (H2 s1).
  destruct (walk_siblings visitor n None cs s1) as [s2| |]; simpl in H2;
    try (eapply R_trans; eassumption).
  specialize (H3 s2).
  destruct (visitor s2 _ false) as [s3 [| |]|s3]; simpl in *;
    (eapply R_trans; [eassumption|]); (eapply R_trans; eassumption).
Qed.
End WalkInvariant.

(** *** The sink is write-only *)

Lemma out_app (w w0 : Writer) (s : string) : out (w ++ w0) s = w ++ out w0 s.
Proof. unfold out, io_WriteString. now rewrite app_assoc. Qed.

Lemma escapeSpecialChars_onto (w w0 : Writer) (text : list byte) :
  escapeSpecialChars (w ++ w0) text = w ++ escapeSpecialChars w0 text.
Proof. apply escapeFrom_app_gen. Qed.

(** Case analysis along the branches of [RenderNode]. *)
Ltac render_cases :=
  repeat match goal with
         | |- context [if ?b then _ else _] => destruct b eqn:?
         | |- context [match ?x with _ => _ end] => destruct x eqn:?
         end.

Lemma RenderNode_onto (r : roffRenderer) (w w0 : Writer) (cur : NodeRef) (e : bool) :
  RenderNode (r, w ++ w0) cur e = step_onto w (RenderNode (r, w0) cur e).
Proof.
  unfold RenderNode.
  destruct (Type_ (self cur)); render_cases;
    unfold step_onto, onto; simpl; rewrite ?out_app, ?escapeSpecialChars_onto, ?out_app;
    try reflexivity.
Qed.

Lemma RenderNode_onto_state (w : Writer) (st : State) (cur : NodeRef) (e : bool) :
  RenderNode (onto w st) cur e = step_onto w (RenderNode st cur e).
Proof. destruct st as [r w0]. apply RenderNode_onto. Qed.

Lemma walk_siblings_onto (w : Writer) (parent : Node) (cs : list Node) :
  Forall (fun c => forall parent prev st,
            walk RenderNode parent prev c (onto w st) =
            outcome_onto w (walk RenderNode parent prev c st)) cs ->
  forall prev st,
    walk_siblings RenderNode parent prev cs (onto w st) =
    outcome_onto w (walk_siblings RenderNode parent prev cs st).
Proof.
  induction 1 as [|c cs Hc _ IH]; intros prev st; simpl; [reflexivity|].
  rewrite Hc. destruct (walk RenderNode (Some parent) prev c st); simpl;
    try reflexivity. apply IH.
Qed.

Lemma walk_onto (w : Writer) (n : Node) :
  forall parent prev st,
    walk RenderNode parent prev n (onto w st) =
    outcome_onto w (walk RenderNode parent prev n st).
Proof.
  induction n as [t lit lvl flags dest hdr cs IH] using Node_nested_ind.
  intros parent prev st. rewrite !walk_eq. cbv zeta.
  change (Children (mkNode t lit lvl flags dest hdr cs)) with cs.
  generalize (walk_siblings_onto w (mkNode t lit lvl flags dest hdr cs) cs IH None).
  generalize (mkNode t lit lvl flags dest hdr cs) as n. intros n Hs.
  rewrite RenderNode_onto_state.
  destruct (RenderNode st _ true) as [s1 [| |]|s1]; cbn [step_onto outcome_onto];
    try reflexivity.
  destruct (isContainer n); [|reflexivity].
  rewrite Hs.
  destruct (walk_siblings RenderNode n None cs s1) as [s2| |];
    cbn [step_onto outcome_onto]; try reflexivity.
  rewrite RenderNode_onto_state.
  destruct (RenderNode s2 _ false) as [s3 [| |]|s3]; reflexivity.
Qed.

(** ** The first-heading flag *)

Lemma h1_markup_app (w1 w2 : Writer) : h1_markup (w1 ++ w2) = h1_markup w1 ++ h1_markup w2.
Proof. unfold h1_markup. now rewrite markup_app, filter_app. Qed.

Lemma h1_markup_out (w : Writer) (s : string) :
  h1_markup (out w s) = h1_markup w ++ (if is_h1_marker s then [s] else []).
Proof. unfold out, io_WriteString. rewrite h1_markup_app. reflexivity. Qed.

Lemma h1_markup_escape (w : Writer) (text : list byte) :
  h1_markup (escapeSpecialChars w text) = h1_markup w.
Proof.
  unfold escapeSpecialChars, h1_markup.
  destruct (escapeFrom_markup text 0 w) as [n ->].
  rewrite filter_app. generalize (if initialControl text then n else 0) as k.
  intros k. induction k as [|k IH]; simpl; [now rewrite app_nil_r|exact IH].
Qed.

Lemma strings_Repeat_no_h1 (count : Z) (format tail : string) :
  strings_Repeat "l " count = Some format ->
  is_h1_marker tail = false ->
  is_h1_marker (format ++ tail) = false.
Proof.
  unfold strings_Repeat. destruct (count <? 0)%Z; [discriminate|].
  intros [= <-] Ht. destruct (Z.to_nat count) as [|k]; simpl; [exact Ht|reflexivity].
Qed.

Ltac h1_simpl :=
  cbn [state_of fst snd];
  rewrite ?h1_markup_out, ?h1_markup_escape, ?h1_markup_out;
  cbn [is_h1_marker String.eqb Ascii.eqb Bool.eqb orb andb
       titleHeader topLevelHeader];
  rewrite ?app_nil_r.

(** What one visit does to the level-1 markers and to the flag. *)
Lemma RenderNode_h1 (st : State) (cur : NodeRef) (e : bool) :
  let st' := state_of (RenderNode st cur e) in
  (h1_markup (snd st') = h1_markup (snd st) /\
   firstHeader (fst st') = firstHeader (fst st)) \/
  (firstHeader (fst st) = false /\ firstHeader (fst st') = true /\
   h1_markup (snd st') = h1_markup (snd st) ++ [titleHeader]) \/
  (firstHeader (fst st) = true /\ firstHeader (fst st') = true /\
   h1_markup (snd st') = h1_markup (snd st) ++ [topLevelHeader]).
Proof.
  destruct st as [r w]. unfold RenderNode.
  destruct (Type_ (self cur)); render_cases; h1_simpl.
  all: try (left; split; reflexivity).
  - right; left. destruct (firstHeader r); [discriminate|]. repeat split.
  - right; right. destruct (firstHeader r); [|discriminate]. repeat split.
  - left. rewrite !(strings_Repeat_no_h1 _ _ _ Heqo) by reflexivity.
    rewrite !app_nil_r. split; reflexivity.
Qed.

Lemma title_then_sections_snoc (l : list string) :
  l <> [] -> title_then_sections l = true ->
  title_then_sections (l ++ [topLevelHeader]) = true.
Proof.
  destruct l as [|m rest]; [congruence|]. intros _.
  cbn [title_then_sections app]. intros H. apply andb_prop in H as [Hm Hr].
  rewrite Hm, forallb_app, Hr. reflexivity.
Qed.

Lemma RenderNode_headings_inv (st : State) (cur : NodeRef) (e : bool) :
  headings_inv st -> headings_inv (state_of (RenderNode st cur e)).
Proof.
  intros [Hshape Hflag].
  destruct (RenderNode_h1 st cur e) as [[Hm Hf]|[[Hf [Hf' Hm]]|[Hf [Hf' Hm]]]];
    unfold headings_inv; rewrite Hm.
  - rewrite Hf. split; assumption.
  - rewrite Hf in Hflag. destruct (h1_markup (snd st)); [|discriminate].
    split; [reflexivity|assumption].
  - rewrite Hf in Hflag. split.
    + apply title_then_sections_snoc; [|assumption].
      destruct (h1_markup (snd st)); [discriminate|congruence].
    + rewrite Hf'. destruct (h1_markup (snd st)); reflexivity.
Qed.

Lemma RenderNode_firstHeader_le (st : State) (cur : NodeRef) (e : bool) :
  Bool.le (firstHeader (fst st)) (firstHeader (fst (state_of (RenderNode st cur e)))).
Proof.
  destruct (RenderNode_h1 st cur e) as [[_ Hf]|[[Hf [Hf' _]]|[Hf [Hf' _]]]].
  - rewrite Hf. destruct (firstHeader (fst st)); reflexivity.
  - rewrite Hf. exact I.
  - rewrite Hf, Hf'. reflexivity.
Qed.

Lemma walk_headings_inv (parent prev : option Node) (n : Node) (st : State) :
  headings_inv st -> headings_inv (final (walk RenderNode parent prev n st)).
Proof.
  apply (walk_related RenderNode (fun a b => headings_inv a -> headings_inv b)).
  - auto.
  - auto.
  - intros s cur e. apply RenderNode_headings_inv.
Qed.

Lemma walk_firstHeader_le (parent prev : option Node) (n : Node) (st : State) :
  Bool.le (firstHeader (fst st))
          (firstHeader (fst (final (walk RenderNode parent prev n st)))).
Proof.
  apply (walk_related RenderNode
           (fun a b => Bool.le (firstHeader (fst a)) (firstHeader (fst b)))).
  - intros s. destruct (firstHeader (fst s)); reflexivity.
  - intros a b c. destruct (firstHeader (fst a)), (firstHeader (fst b)); simpl; auto.
    discriminate.
  - intros s cur e. apply RenderNode_firstHeader_le.
Qed.

Lemma count_occ_filter_keep (f : string -> bool) (l : list string) (x : string) :
  f x = true -> count_occ string_dec (filter f l) x = count_occ string_dec l x.
Proof.
  intros Hx. induction l as [|a l IH]; simpl; [reflexivity|].
  destruct (string_dec a x) as [->|Hne].
  - rewrite Hx. simpl. destruct (string_dec x x); congruence.
  - destruct (f a); simpl; [|exact IH]. destruct (string_dec a x); congruence.
Qed.

Lemma title_then_sections_once (l : list string) :
  title_then_sections l = true -> count_occ string_dec l titleHeader <= 1.
Proof.
  destruct l as [|m rest]; cbn [title_then_sections count_occ]; [lia|]. intros H.
  apply andb_prop in H as [_ Hr].
  assert (E : count_occ string_dec rest titleHeader = 0).
  { induction rest as [|a rest IH]; [reflexivity|].
    cbn [forallb] in Hr. apply andb_prop in Hr as [Ha Hr].
    apply String.eqb_eq in Ha. subst a. cbn [count_occ].
    destruct (string_dec topLevelHeader titleHeader); [discriminate|auto]. }
  rewrite E. destruct (string_dec m titleHeader); lia.
Qed.

Lemma after_visits_headings_inv (visits : list (NodeRef * bool)) (st : State) :
  headings_inv st -> headings_inv (after_visits visits st).
Proof.
  revert st. induction visits as [|v visits IH]; intros st H; [exact H|].
  apply IH. apply RenderNode_headings_inv. exact H.
Qed.

(** What one visit does to the level-1 markers and to the flag, by the kind
    of the visit. *)
Lemma RenderNode_h1_exact (st : State) (cur : NodeRef) (e : bool) :
  let st' := state_of (RenderNode st cur e) in
  if enters_h1 (cur, e)
  then firstHeader (fst st') = true /\
       h1_markup (snd st') =
       h1_markup (snd st) ++ [if firstHeader (fst st) then topLevelHeader else titleHeader]
  else firstHeader (fst st') = firstHeader (fst st) /\
       h1_markup (snd st') = h1_markup (snd st).
Proof.
  destruct st as [r w]. unfold RenderNode, enters_h1. cbn [fst snd].
  destruct (Type_ (self cur)); cbn [NodeType_eqb andb].
  6: { destruct e; cbn [andb]; [|split; reflexivity].
       destruct (Level (self cur) =? 1)%Z.
       - destruct (firstHeader r) eqn:Hf; cbn [negb]; h1_simpl;
           cbn [firstHeader set_firstHeader]; rewrite ?Hf; split; reflexivity.
       - destruct (Level (self cur) =? 2)%Z; h1_simpl; split; reflexivity. }
  all: render_cases; h1_simpl; try (split; reflexivity).
  rewrite !(strings_Repeat_no_h1 _ _ _ Heqo) by reflexivity.
  rewrite !app_nil_r. split; reflexivity.
Qed.

Lemma h1_markers_seen (k : nat) : h1_markers true k = repeat topLevelHeader k.
Proof. destruct k; reflexivity. Qed.

(** The level-1 markers of any sequence of visits, in closed form. *)
Lemma after_visits_h1 (visits : list (NodeRef * bool)) (st : State) :
  h1_markup (snd (after_visits visits st)) =
    h1_markup (snd st)
    ++ h1_markers (firstHeader (fst st)) (length (filter enters_h1 visits)) /\
  firstHeader (fst (after_visits visits st)) =
    firstHeader (fst st) || negb (is_nil (filter enters_h1 visits)).
Proof.
  revert st. induction visits as [|v vs IH]; intros st.
  - cbn. rewrite app_nil_r, orb_false_r. split; reflexivity.
  - change (after_visits (v :: vs) st)
      with (after_visits vs (state_of (RenderNode st (fst v) (snd v)))).
    destruct (IH (state_of (RenderNode st (fst v) (snd v)))) as [IHm IHf].
    pose proof (RenderNode_h1_exact st (fst v) (snd v)) as Hs. cbv zeta in Hs.
    replace (fst v, snd v) with v in Hs by (destruct v; reflexivity).
    cbn [filter]. destruct (enters_h1 v); destruct Hs as [Hf Hm].
    + rewrite IHm, IHf, Hm, Hf, h1_markers_seen.
      cbn [length h1_markers is_nil negb]. rewrite <- app_assoc, orb_true_r.
      split; reflexivity.
    + rewrite IHm, IHf, Hm, Hf. split; reflexivity.
Qed.

(** *** The visits of a traversal *)

Lemma visits_of_eq (parent prev : option Node) (n : Node) :
  visits_of parent prev n =
  let cur := {| self := n; Parent := parent; Prev := prev |} in
  if NodeType_eqb (Type_ n) Image || negb (isContainer n) then [(cur, true)]
  else (cur, true) :: visits_of_siblings n None (Children n) ++ [(cur, false)].
Proof.
  destruct n as [t lit lvl flags dest hdr cs]. cbn -[isContainer NodeType_eqb].
  destruct (NodeType_eqb t Image || negb (isContainer _)); [reflexivity|].
  do 2 f_equal.
  generalize (mkNode t lit lvl flags dest hdr cs) as p. generalize (@None Node) as prev0.
  induction cs as [|c cs IH]; intros prev0 p; [reflexivity|].
  simpl. f_equal. apply IH.
Qed.

Lemma after_visits_app (a b : list (NodeRef * bool)) (st : State) :
  after_visits (a ++ b) st = after_visits b (after_visits a st).
Proof. apply fold_left_app. Qed.

(** The directive [RenderNode] returns depends on the node type alone. *)
Lemma RenderNode_status (st st' : State) (cur : NodeRef) (e : bool) (status : WalkStatus) :
  RenderNode st cur e = Return st' status ->
  status = if NodeType_eqb (Type_ (self cur)) Image then SkipChildren else GoToNext.
Proof.
  destruct st as [r w]. unfold RenderNode.
  destruct (Type_ (self cur)); cbn [NodeType_eqb]; render_cases;
    intros [= _ <-]; reflexivity.
Qed.

Lemma walk_siblings_visits (parent : Node) (cs : list Node) :
  Forall (fun c => forall parent prev st,
            makes_visits (visits_of parent prev c) st (walk RenderNode parent prev c st)) cs ->
  forall prev st,
    makes_visits (visits_of_siblings parent prev cs) st
                 (walk_siblings RenderNode parent prev cs st).
Proof.
  induction 1 as [|c cs Hc _ IH]; intros prev st; simpl.
  - exists [], []. repeat split.
  - destruct (Hc (Some parent) prev st) as (d1 & r1 & E1 & F1 & O1).
    destruct (walk RenderNode (Some parent) prev c st) as [s1| |s1]; [|contradiction|].
    + subst r1. rewrite app_nil_r in E1. cbn [final] in F1.
      destruct (IH (Some c) s1) as (d2 & r2 & E2 & F2 & O2).
      exists (d1 ++ d2), r2. rewrite E1, E2, app_assoc, after_visits_app, <- F1.
      repeat split; assumption.
    + exists d1, (r1 ++ visits_of_siblings parent (Some c) cs).
      rewrite E1, app_assoc. repeat split. exact F1.
Qed.

Lemma walk_visits (n : Node) :
  forall parent prev st,
    makes_visits (visits_of parent prev n) st (walk RenderNode parent prev n st).
Proof.
  induction n as [t lit lvl flags dest hdr cs IH] using Node_nested_ind.
  intros parent prev st. rewrite walk_eq, visits_of_eq. cbv zeta.
  change (Children (mkNode t lit lvl flags dest hdr cs)) with cs.
  generalize (walk_siblings_visits (mkNode t lit lvl flags dest hdr cs) cs IH None).
  generalize (mkNode t lit lvl flags dest hdr cs) as n. intros n Hs.
  set (cur := {| self := n; Parent := parent; Prev := prev |}).
  destruct (RenderNode st cur true) as [s1 status|s1] eqn:H1.
  - pose proof (RenderNode_status _ _ _ _ _ H1) as Hst. cbn [cur self] in Hst.
    destruct (NodeType_eqb (Type_ n) Image); subst status; cbn [orb].
    + exists [(cur, true)], []. repeat split. cbn. now rewrite H1.
    + destruct (isContainer n); cbn [negb].
      * destruct (Hs s1) as (d & rest & E & F & O).
        destruct (walk_siblings RenderNode n None cs s1) as [s2| |s2]; [|contradiction|].
        -- subst rest. rewrite app_nil_r in E. cbn [final] in F.
           destruct (RenderNode s2 cur false) as [s3 status3|s3] eqn:H3.
           ++ pose proof (RenderNode_status _ _ _ _ _ H3) as Hst3.
              exists ((cur, true) :: d ++ [(cur, false)]), [].
              rewrite E, app_nil_r. split; [reflexivity|].
              assert (Hfin : s3 = after_visits ((cur, true) :: d ++ [(cur, false)]) st).
              { change ((cur, true) :: d ++ [(cur, false)])
                  with ([(cur, true)] ++ d ++ [(cur, false)]).
                rewrite !after_visits_app. cbn. rewrite H1. cbn [state_of].
                rewrite <- F. cbn. now rewrite H3. }
              destruct status3; try (split; [exact Hfin|reflexivity]).
              destruct (NodeType_eqb (Type_ (self cur)) Image); discriminate.
           ++ exists ((cur, true) :: d ++ [(cur, false)]), [].
              rewrite E, app_nil_r. split; [reflexivity|]. split; [|exact I].
              change ((cur, true) :: d ++ [(cur, false)])
                with ([(cur, true)] ++ d ++ [(cur, false)]).
              rewrite !after_visits_app. cbn. rewrite H1. cbn [state_of].
              rewrite <- F. cbn. now rewrite H3.
        -- exists ((cur, true) :: d), (rest ++ [(cur, false)]).
           rewrite E, <- app_assoc. split; [reflexivity|]. split; [|exact I].
           change ((cur, true) :: d) with ([(cur, true)] ++ d).
           rewrite after_visits_app. cbn. rewrite H1. exact F.
      * exists [(cur, true)], []. repeat split. cbn. now rewrite H1.
  - exists [(cur, true)].
    destruct (NodeType_eqb (Type_ n) Image || negb (isContainer n)).
    + exists []. repeat split. cbn. now rewrite H1.
    + exists (visits_of_siblings n None cs ++ [(cur, false)]).
      repeat split. cbn. now rewrite H1.
Qed.

(** C10.  Entering a level-1 heading writes the title marker [.TH] and sets
    the first-heading flag when the flag is clear, and writes the top-level
    section marker when it is set; every other visit writes no level-1
    marker and leaves the flag as it is.  So after any sequence of visits
    the level-1 markers written are, for [k] entries into level-1 headings,
    the title marker (if the flag was clear) followed by [k - 1] section
    markers, and the flag is set exactly if it was set or [k > 0].  No
    traversal ever clears the flag.  The render of any document by a new
    renderer makes the visits of the document in their order, up to a
    panic if there is one, so the first level-1 heading it enters writes
    the title marker and every later one the section marker: the level-1
    markers written are nothing, or one title marker followed by section
    markers only, the flag is set exactly when a marker was written, and
    the title marker is written at most once. *)
Theorem first_level1_heading_is_the_title :
  (forall (r : roffRenderer) (w : Writer) (lit dest : list byte) (flags : Z)
          (hdr : bool) (cs : list Node) (parent prev : option Node),
      RenderNode (r, w)
        {| self := mkNode Heading lit 1 flags dest hdr cs;
           Parent := parent; Prev := prev |} true =
      if firstHeader r
      then Return (r, out w topLevelHeader) GoToNext
      else Return (set_firstHeader r true, out w titleHeader) GoToNext) /\
  (forall (st : State) (cur : NodeRef) (entering : bool),
      let st' := state_of (RenderNode st cur entering) in
      if enters_h1 (cur, entering)
      then firstHeader (fst st') = true /\
           h1_markup (snd st') =
           h1_markup (snd st)
           ++ [if firstHeader (fst st) then topLevelHeader else titleHeader]
      else firstHeader (fst st') = firstHeader (fst st) /\
           h1_markup (snd st') = h1_markup (snd st)) /\
  (forall (visits : list (NodeRef * bool)) (st : State),
      h1_markup (snd (after_visits visits st)) =
        h1_markup (snd st)
        ++ h1_markers (firstHeader (fst st)) (length (filter enters_h1 visits)) /\
      firstHeader (fst (after_visits visits st)) =
        firstHeader (fst st) || negb (is_nil (filter enters_h1 visits))) /\
  (forall (st : State) (parent prev : option Node) (n : Node),
      Bool.le (firstHeader (fst st))
              (firstHeader (fst (final (walk RenderNode parent prev n st))))) /\
  (forall (e1 e2 e3 e4 e5 e6 e7 : Z) (ast : Node),
      let r := NewRoffRenderer e1 e2 e3 e4 e5 e6 e7 in
      exists done rest : list (NodeRef * bool),
        visits_of None None ast = done ++ rest /\
        match Render r ast with
        | Finished _ => rest = []
        | Stopped _ => False
        | Crashed _ => True
        end /\
        final (Render r ast) = after_visits done (r, RenderHeader [] ast) /\
        h1_markup (snd (final (Render r ast))) =
          h1_markers false (length (filter enters_h1 done)) /\
        firstHeader (fst (final (Render r ast))) =
          negb (is_nil (filter enters_h1 done))) /\
  (forall (e1 e2 e3 e4 e5 e6 e7 : Z) (ast : Node),
      let st := final (Render (NewRoffRenderer e1 e2 e3 e4 e5 e6 e7) ast) in
      title_then_sections (h1_markup (snd st)) = true /\
      firstHeader (fst st) = negb (is_nil (h1_markup (snd st))) /\
      count_occ string_dec (markup (snd st)) titleHeader <= 1) /\
  (forall (e1 e2 e3 e4 e5 e6 e7 : Z) (visits : list (NodeRef * bool)),
      let st := after_visits visits (NewRoffRenderer e1 e2 e3 e4 e5 e6 e7, []) in
      title_then_sections (h1_markup (snd st)) = true /\
      firstHeader (fst st) = negb (is_nil (h1_markup (snd st))) /\
      count_occ string_dec (markup (snd st)) titleHeader <= 1).
Proof.
  split; [|split; [|split; [|split; [|split; [|split]]]]].
  - intros. unfold RenderNode. cbn. destruct (firstHeader r); reflexivity.
  - intros st cur entering. apply RenderNode_h1_exact.
  - intros visits st. apply after_visits_h1.
  - intros. apply walk_firstHeader_le.
  - intros e1 e2 e3 e4 e5 e6 e7 ast r.
    destruct (walk_visits ast None None (r, RenderHeader [] ast))
      as (done & rest & E & F & O).
    assert (Hfin : final (Render r ast) = after_visits done (r, RenderHeader [] ast)).
    { rewrite <- F. unfold Render, Walk. cbn [self Parent Prev].
      destruct (walk RenderNode None None ast (r, RenderHeader [] ast))
        as [[r' w']|[r' w']|st']; reflexivity. }
    exists done, rest. split; [exact E|]. split; [|split; [exact Hfin|]].
    + unfold Render, Walk. cbn [self Parent Prev].
      destruct (walk RenderNode None None ast (r, RenderHeader [] ast))
        as [[r' w']|[r' w']|st']; exact O.
    + rewrite Hfin.
      destruct (after_visits_h1 done (r, RenderHeader [] ast)) as [Hm Hf].
      split; [exact Hm|exact Hf].
  - intros e1 e2 e3 e4 e5 e6 e7 ast st.
    assert (Hinv : headings_inv st).
    { subst st. unfold Render, Walk. cbn [self Parent Prev].
      match goal with
      | |- context [walk RenderNode None None ast ?s0] =>
          pose proof (walk_headings_inv None None ast s0) as H;
          destruct (walk RenderNode None None ast s0) as [[r w]|[r w]|[r w]]
      end; apply H; split; reflexivity. }
    destruct Hinv as [Hshape Hflag]. repeat split; try assumption.
    rewrite <- (count_occ_filter_keep is_h1_marker) by reflexivity.
    apply title_then_sections_once. exact Hshape.
  - intros e1 e2 e3 e4 e5 e6 e7 visits st.
    assert (Hinv : headings_inv st).
    { subst st. apply after_visits_headings_inv. split; reflexivity. }
    destruct Hinv as [Hshape Hflag]. repeat split; try assumption.
    rewrite <- (count_occ_filter_keep is_h1_marker) by reflexivity.
    apply title_then_sections_once. exact Hshape.
Qed.

(** A level-2 heading before it does not take the title from the first
    level-1 heading. *)
Example title_after_a_level2_heading :
  h1_markup (snd (final (Render (NewRoffRenderer 0 0 0 0 0 0 0) h2_then_h1))) =
    [titleHeader; topLevelHeader] /\
  markup (snd (final (Render (NewRoffRenderer 0 0 0 0 0 0 0) h2_then_h1))) =
    [(".nh" ++ nl)%string; secondLevelHdr; ""; ""; titleHeader; ""; "";
     topLevelHeader; ""; ""].
Proof. split; reflexivity. Qed.

(** ** Tables *)

(** *** The column counter *)

(** The counting visitor never goes on after its first row or cell. *)
Lemma count_walk (n : Node) :
  forall parent prev,
    walk countVisitor parent prev n 0%Z = Finished 0%Z \/
    walk countVisitor parent prev n 0%Z = Stopped 0%Z \/
    walk countVisitor parent prev n 0%Z = Stopped 1%Z.
Proof.
  induction n as [t lit lvl flags dest hdr cs IH] using Node_nested_ind.
  intros parent prev. rewrite walk_eq. cbv zeta.
  change (Children (mkNode t lit lvl flags dest hdr cs)) with cs.
  assert (Hs : forall p prev0,
             walk_siblings countVisitor p prev0 cs 0%Z = Finished 0%Z \/
             walk_siblings countVisitor p prev0 cs 0%Z = Stopped 0%Z \/
             walk_siblings countVisitor p prev0 cs 0%Z = Stopped 1%Z).
  { clear parent prev. induction IH as [|c cs Hc _ IHcs]; intros p prev0; simpl; [auto|].
    destruct (Hc (Some p) prev0) as [->|[->| ->]]; auto. }
  specialize (Hs (mkNode t lit lvl flags dest hdr cs) None).
  unfold countVisitor at 1. cbn [self Type_].
  destruct t; cbn -[walk_siblings]; auto;
    destruct Hs as [->|[->| ->]]; auto.
Qed.

Lemma countColumns_range (cur : NodeRef) : countColumns cur = 0%Z \/ countColumns cur = 1%Z.
Proof.
  unfold countColumns, Walk.
  destruct (count_walk (self cur) (Parent cur) (Prev cur)) as [->|[->| ->]]; auto.
Qed.

Lemma strings_Repeat_columns (cur : NodeRef) :
  exists format, strings_Repeat "l " (countColumns cur) = Some format.
Proof.
  destruct (countColumns_range cur) as [-> | ->]; eexists; reflexivity.
Qed.

(** *** The claims about tables *)

(** Whatever the cells of its first row, a table that starts with a head
    section and a row in it counts no column. *)
Lemma countColumns_stops_at_first_row
      (parent prev : option Node)
      (l1 d1 l2 d2 l3 d3 : list byte) (v1 f1 v2 f2 v3 f3 : Z) (h1 h2 h3 : bool)
      (cells rows sections : list Node) :
  countColumns
    {| self := mkNode Table l1 v1 f1 d1 h1
                 (mkNode TableHead l2 v2 f2 d2 h2
                    (mkNode TableRow l3 v3 f3 d3 h3 cells :: rows) :: sections);
       Parent := parent; Prev := prev |} = 0%Z.
Proof. reflexivity. Qed.

(** C1.  For the table [three_columns], whose rows all have three cells,
    [countColumns] returns 0: its visitor returns [Terminate] on entering
    the first row, before any cell is seen.  Entering the table then writes
    two format lines that hold no column specifier at all. *)
Theorem countColumns_three_columns :
  countColumns (root three_columns) = 0%Z /\
  (forall (r : roffRenderer) (w : Writer),
      RenderNode (r, w) (root three_columns) true =
      Return (r, w ++ [WriteString tableStart; WriteString nl;
                       WriteString ("." ++ nl)%string]) GoToNext).
Proof.
  split; [reflexivity|]. intros r w. unfold RenderNode. cbn.
  unfold out, io_WriteString. rewrite <- !app_assoc. reflexivity.
Qed.

(** C3.  Entering a table cell whose [Prev] is nil, as it is for the first
    cell of every row, panics on [node.Prev.Type]; the render of a document
    that holds the table [three_columns] ends in that panic, at the first
    cell of the header row. *)
Theorem first_cell_of_a_row_panics :
  (forall (r : roffRenderer) (w : Writer) (lit dest : list byte) (lvl flags : Z)
          (hdr : bool) (cs : list Node) (parent : option Node),
      RenderNode (r, w)
        {| self := mkNode TableCell lit lvl flags dest hdr cs;
           Parent := parent; Prev := None |} true = Panic (r, w)) /\
  (forall e1 e2 e3 e4 e5 e6 e7 : Z,
      Render (NewRoffRenderer e1 e2 e3 e4 e5 e6 e7) (node Document [three_columns]) =
      Crashed (NewRoffRenderer e1 e2 e3 e4 e5 e6 e7,
               [WriteString (".nh" ++ nl)%string; WriteString tableStart;
                WriteString nl; WriteString ("." ++ nl)%string; WriteString nl])).
Proof.
  split.
  - intros. unfold RenderNode. cbn. destruct hdr; reflexivity.
  - intros. reflexivity.
Qed.

(** C5.  A header cell that is the first of its row is not wrapped: entering
    it panics when its [Prev] is nil, and writes nothing, the code-style
    start marker included, when its [Prev] is a node of another type; yet
    leaving it writes the close marker.  A header cell that follows a cell
    is entered with a tab and the start marker. *)
Theorem first_header_cell_not_wrapped :
  (forall (r : roffRenderer) (w : Writer) (parent : option Node) (s : string),
      RenderNode (r, w)
        {| self := cell true s; Parent := parent; Prev := None |} true =
      Panic (r, w)) /\
  (forall (r : roffRenderer) (w : Writer) (parent : option Node) (s : string)
          (cs : list Node),
      RenderNode (r, w)
        {| self := cell true s; Parent := parent; Prev := Some (node TableRow cs) |}
        true = Return (r, w) GoToNext) /\
  (forall (r : roffRenderer) (w : Writer) (parent prev : option Node) (s : string),
      RenderNode (r, w) {| self := cell true s; Parent := parent; Prev := prev |} false =
      Return (r, out w codespanCloseTag) GoToNext) /\
  (forall (r : roffRenderer) (w : Writer) (parent : option Node) (s s' : string)
          (hdr : bool),
      RenderNode (r, w)
        {| self := cell true s; Parent := parent; Prev := Some (cell hdr s') |} true =
      Return (r, out w (tab ++ codespanTag)%string) GoToNext).
Proof. repeat split. Qed.

(** ** Lists *)

(** *** The list counters *)

(** A visit of any node but a list, an item or a table cell returns and
    leaves the counters alone. *)
Lemma RenderNode_frame (r : roffRenderer) (w : Writer) (cur : NodeRef) (e : bool) :
  match Type_ (self cur) with
  | List | Item | TableCell => False
  | Text => Parent cur <> None
  | _ => True
  end ->
  exists r' w' status,
    RenderNode (r, w) cur e = Return (r', w') status /\
    ListCounters r' = ListCounters r /\ status <> Terminate.
Proof.
  unfold RenderNode.
  destruct (Type_ (self cur)) eqn:Ht; intros H; try contradiction.
  all: try (destruct (strings_Repeat_columns cur) as [format Hf]; rewrite Hf).
  all: render_cases; try congruence.
  all: do 3 eexists; split; [reflexivity|split; [reflexivity|discriminate]].
Qed.

Lemma walk_siblings_onto_nil (parent : Node) (prev : option Node) (cs : list Node)
      (r : roffRenderer) (w : Writer) :
  walk_siblings RenderNode parent prev cs (r, w) =
  outcome_onto w (walk_siblings RenderNode parent prev cs (r, [])).
Proof.
  rewrite <- (walk_siblings_onto w parent cs).
  - unfold onto. simpl. now rewrite app_nil_r.
  - apply Forall_forall. intros c _. apply walk_onto.
Qed.

Lemma siblings_keep_counters (cs : list Node) :
  Forall keeps_counters cs ->
  forall (p : Node) (prev : option Node) (r : roffRenderer) (w : Writer),
  exists r' w',
    walk_siblings RenderNode p prev cs (r, w) = Finished (r', w') /\
    ListCounters r' = ListCounters r.
Proof.
  induction 1 as [|c cs Hc _ IH]; intros p prev r w; simpl.
  - eauto.
  - destruct (Hc p prev r w) as (r1 & w1 & -> & E1).
    destruct (IH p (Some c) r1 w1) as (r2 & w2 & -> & E2).
    exists r2, w2. split; [reflexivity|congruence].
Qed.

Lemma Forall_forallb_mp {A} (P : A -> Prop) (f : A -> bool) (l : list A) :
  Forall (fun x => f x = true -> P x) l -> forallb f l = true -> Forall P l.
Proof.
  induction 1 as [|x l Hx _ IH]; simpl; intros H; constructor;
    apply andb_prop in H as [H1 H2]; auto.
Qed.

Lemma item_counts (n : Node) :
  Type_ n = Item ->
  has_flag (ListFlags n) ListTypeOrdered = true ->
  Forall keeps_counters (Children n) ->
  counts_item n.
Proof.
  intros Ht Ho Hcs parent prev r w outer c Hr.
  set (r1 := set_ListCounters r (outer ++ [int_wrap (c + 1)])).
  destruct (siblings_keep_counters _ Hcs n None r1 []) as (r2 & body & Hb & Hr2).
  exists r1, r2, body.
  split; [reflexivity|split; [exact Hb|split; [exact Hr2|]]].
  rewrite walk_eq. cbv zeta. unfold RenderNode at 1. cbn [self].
  rewrite Ht, Ho, Hr, removelast_last, last_last. fold r1.
  destruct (outer ++ [c]) eqn:E; [destruct outer; discriminate|].
  replace (isContainer n) with true by (unfold isContainer; now rewrite Ht).
  rewrite walk_siblings_onto_nil, Hb. cbn [outcome_onto]. unfold onto. cbn [fst snd].
  unfold RenderNode. cbn [self]. rewrite Ht.
  unfold out, io_WriteString. rewrite <- ?app_assoc. reflexivity.
Qed.

Lemma item_keeps_counters (n : Node) :
  Type_ n = Item ->
  has_flag (ListFlags n) ListTypeOrdered = false ->
  Forall keeps_counters (Children n) ->
  forall (parent prev : option Node) (r : roffRenderer) (w : Writer),
  exists r' w',
    walk RenderNode parent prev n (r, w) = Finished (r', w') /\
    ListCounters r' = ListCounters r.
Proof.
  intros Ht Ho Hcs parent prev r w.
  rewrite walk_eq. cbv zeta. unfold RenderNode at 1. cbn [self]. rewrite Ht, Ho.
  replace (isContainer n) with true by (unfold isContainer; now rewrite Ht).
  assert (G : forall r1 w1, ListCounters r1 = ListCounters r ->
    exists r' w',
      match walk_siblings RenderNode n None (Children n) (r1, w1) with
      | Finished s2 =>
          match RenderNode s2 {| self := n; Parent := parent; Prev := prev |} false with
          | Return s3 GoToNext | Return s3 SkipChildren => Finished s3
          | Return s3 Terminate => Stopped s3
          | Panic s3 => Crashed s3
          end
      | Stopped s0 => Stopped s0
      | Crashed s0 => Crashed s0
      end = Finished (r', w') /\ ListCounters r' = ListCounters r).
  { intros r1 w1 E1.
    destruct (siblings_keep_counters _ Hcs n None r1 w1) as (r2 & w2 & -> & E2).
    unfold RenderNode. cbn [self]. rewrite Ht.
    do 2 eexists. split; [reflexivity|congruence]. }
  destruct (has_flag (ListFlags n) ListTypeDefinition); [destruct (negb (defineTerm r))|];
    apply G; reflexivity.
Qed.

Lemma items_keep_outer (o : bool) (items : list Node) :
  Forall (fun c => Type_ c = Item /\
                   has_flag (ListFlags c) ListTypeOrdered = o /\
                   Forall keeps_counters (Children c)) items ->
  forall (p : Node) (prev : option Node) (r : roffRenderer) (w : Writer),
  (o = true -> ListCounters r <> []) ->
  exists r' w',
    walk_siblings RenderNode p prev items (r, w) = Finished (r', w') /\
    if o then removelast (ListCounters r') = removelast (ListCounters r) /\
              ListCounters r' <> []
    else ListCounters r' = ListCounters r.
Proof.
  induction 1 as [|c items (Ht & Ho & Hcs) _ IH]; intros p prev r w Hne; simpl.
  - exists r, w. split; [reflexivity|]. destruct o; auto.
  - destruct o.
    + pose proof (app_removelast_last 0%Z (Hne eq_refl)) as Hr.
      destruct (item_counts c Ht Ho Hcs (Some p) prev r w _ _ Hr)
        as (r1 & r2 & body & _ & _ & Hr2 & ->).
      destruct (IH p (Some c) r2 (w ++ [WriteString (itemTag (last (ListCounters r) 0%Z))]
                                    ++ body ++ [WriteString nl]))
        as (r' & w' & -> & E1 & E2).
      { intros _. rewrite Hr2. destruct (removelast (ListCounters r)); discriminate. }
      exists r', w'. split; [reflexivity|]. split; [|assumption].
      rewrite E1, Hr2. apply removelast_last.
    + destruct (item_keeps_counters c Ht Ho Hcs (Some p) prev r w) as (r1 & w1 & -> & E1).
      destruct (IH p (Some c) r1 w1) as (r' & w' & -> & E2); [discriminate|].
      exists r', w'. split; [reflexivity|congruence].
Qed.

Lemma well_formed_list (t : NodeType) lit lvl flags dest hdr (cs : list Node) :
  t = List ->
  well_formed (mkNode t lit lvl flags dest hdr cs) =
  forallb (fun c =>
             NodeType_eqb (Type_ c) Item
             && Bool.eqb (has_flag (ListFlags c) ListTypeOrdered)
                         (has_flag flags ListTypeOrdered)
             && forallb well_formed (Children c)) cs.
Proof. intros ->. reflexivity. Qed.

Lemma NodeType_eqb_eq (a b : NodeType) : NodeType_eqb a b = true -> a = b.
Proof. destruct a, b; simpl; congruence. Qed.

(** The walk of a list node, given the walk of its items. *)
Lemma walk_list lit lvl flags dest hdr (items : list Node)
      (parent prev : option Node) (r r2 : roffRenderer) (w w2 : Writer) :
  let L := mkNode List lit lvl flags dest hdr items in
  walk_siblings RenderNode L None items (enter_list flags r, out w (openTag flags)) =
    Finished (r2, w2) ->
  (has_flag flags ListTypeOrdered = true -> ListCounters r2 <> []) ->
  walk RenderNode parent prev L (r, w) =
    Finished (leave_list flags r2, out w2 (closeTag flags)).
Proof.
  intros L Hs Hne. rewrite walk_eq. cbv zeta.
  unfold RenderNode at 1. cbn [self Type_ ListFlags Children isContainer L].
  unfold enter_list, openTag in Hs. fold L.
  destruct (has_flag flags ListTypeDefinition) eqn:Hd;
    destruct (has_flag flags ListTypeOrdered) eqn:Ho;
    cbn [set_inList ListCounters] in *; rewrite Hs;
    unfold RenderNode; cbn [self Type_ ListFlags L]; rewrite Hd, Ho;
    unfold leave_list, closeTag; rewrite Hd, Ho;
    try reflexivity;
    destruct (ListCounters r2) eqn:E; try reflexivity;
    exfalso; apply Hne; reflexivity.
Qed.

Lemma walk_plain (n : Node) :
  match Type_ n with List | Item | TableCell | Image => False | _ => True end ->
  Forall keeps_counters (Children n) ->
  keeps_counters n.
Proof.
  intros Ht Hcs p prev r w. rewrite walk_eq. cbv zeta.
  set (cur := {| self := n; Parent := Some p; Prev := prev |}).
  assert (Hcur : match Type_ (self cur) with
                 | List | Item | TableCell => False
                 | Text => Parent cur <> None
                 | _ => True
                 end).
  { cbn [cur self Parent]. destruct (Type_ n); try exact I; try contradiction.
    discriminate. }
  destruct (RenderNode_frame r w cur true Hcur) as (r1 & w1 & st1 & -> & E1 & T1).
  destruct st1; [| |congruence].
  - destruct (isContainer n).
    + destruct (siblings_keep_counters _ Hcs n None r1 w1) as (r2 & w2 & -> & E2).
      destruct (RenderNode_frame r2 w2 cur false Hcur) as (r3 & w3 & st3 & -> & E3 & T3).
      exists r3, w3. destruct st3; try congruence; split; congruence.
    + exists r1, w1. split; [reflexivity|assumption].
  - exists r1, w1. split; [reflexivity|assumption].
Qed.

Lemma walk_image (n : Node) : Type_ n = Image -> keeps_counters n.
Proof.
  intros Ht p prev r w. rewrite walk_eq. cbv zeta.
  unfold RenderNode. cbn [self]. rewrite Ht. eauto.
Qed.

(** Well-formed content keeps the counters of the lists around it. *)
Lemma well_formed_counters_kept (n : Node) : counters_kept n.
Proof.
  induction n as [t lit lvl flags dest hdr cs IH] using Node_nested_ind.
  assert (Hkids : forallb well_formed cs = true -> Forall keeps_counters cs).
  { apply Forall_forallb_mp. eapply Forall_impl; [|exact IH]. intros c [H _]. exact H. }
  split; [|exact Hkids].
  destruct (NodeType_eqb t List) eqn:Hlist.
  - (* a list: its items keep what lies below its own counter *)
    apply NodeType_eqb_eq in Hlist. rewrite (well_formed_list _ _ _ _ _ _ _ Hlist).
    subst t. intros Hwf p prev r w.
    assert (Hitems : Forall (fun c => Type_ c = Item /\
                   has_flag (ListFlags c) ListTypeOrdered = has_flag flags ListTypeOrdered /\
                   Forall keeps_counters (Children c)) cs).
    { clear Hkids. induction IH as [|c cs [_ Hc] _ IHcs]; [constructor|].
      simpl in Hwf. apply andb_prop in Hwf as [Hc' Hwf].
      apply andb_prop in Hc' as [Hc' Hgrand]. apply andb_prop in Hc' as [Hty Hflag].
      constructor; [|auto]. repeat split.
      - now apply NodeType_eqb_eq.
      - now apply Bool.eqb_prop.
      - auto. }
    destruct (items_keep_outer _ cs Hitems (mkNode List lit lvl flags dest hdr cs) None
                (enter_list flags r) (out w (openTag flags)))
      as (r2 & w2 & Hs & Hr2).
    { unfold enter_list. intros ->. simpl. destruct (ListCounters r); discriminate. }
    exists (leave_list flags r2), (out w2 (closeTag flags)). split.
    + apply walk_list; [exact Hs|]. intros Ho. rewrite Ho in Hr2. tauto.
    + unfold leave_list, enter_list in *.
      destruct (has_flag flags ListTypeOrdered); simpl in *.
      * destruct Hr2 as [-> _]. apply removelast_last.
      * exact Hr2.
  - destruct t; try discriminate Hlist; try (intros Hwf; discriminate Hwf);
      try (intros _; apply walk_image; reflexivity);
      intros Hwf; apply walk_plain; try exact I; apply Hkids; exact Hwf.
Qed.

Lemma well_formed_keeps_counters (cs : list Node) :
  forallb well_formed cs = true -> Forall keeps_counters cs.
Proof.
  intros H. apply (Forall_forallb_mp _ well_formed); [|exact H].
  apply Forall_forall. intros c _. apply well_formed_counters_kept.
Qed.


(** *** Content that may hold tables *)













(** *** The item marker shows its number *)

Lemma list_ascii_of_append (a b : string) :
  list_ascii_of_string (a ++ b)%string = list_ascii_of_string a ++ list_ascii_of_string b.
Proof. induction a as [|c a IH]; simpl; [reflexivity|now rewrite IH]. Qed.

Lemma append_inv_tail (a b t : string) : (a ++ t)%string = (b ++ t)%string -> a = b.
Proof.
  intros H. apply (f_equal list_ascii_of_string) in H.
  rewrite !list_ascii_of_append in H. apply app_inv_tail in H.
  apply (f_equal string_of_list_ascii) in H.
  now rewrite !string_of_list_ascii_of_string in H.
Qed.

Lemma to_int_proper (z : Z) : Z.to_int z <> Decimal.Pos Decimal.Nil /\
                              Z.to_int z <> Decimal.Neg Decimal.Nil.
Proof.
  destruct z as [|p|p]; simpl; split; try discriminate;
    intros [= H]; exact (DecimalPos.Unsigned.to_uint_nonnil p H).
Qed.

Lemma decimal_head (z : Z) :
  exists c rest, NilZero.string_of_int (Z.to_int z) = String c rest /\
                 Ascii.eqb c " " = false.
Proof.
  destruct (NilZero.string_of_int (Z.to_int z)) as [|c rest] eqn:E.
  - exfalso. destruct (to_int_proper z) as [H1 H2].
    pose proof (NilZero.isi _ H1 H2) as H. rewrite E in H. discriminate.
  - exists c, rest. split; [reflexivity|].
    destruct (Ascii.eqb c " ") eqn:Hc; [|reflexivity].
    apply Ascii.eqb_eq in Hc. subst c. exfalso.
    destruct (to_int_proper z) as [H1 H2].
    pose proof (NilZero.isi _ H1 H2) as H. rewrite E in H. simpl in H.
    destruct (NilEmpty.uint_of_string rest); discriminate.
Qed.

Lemma strip_spaces_pad (n : nat) (s : string) (c : ascii) (rest : string) :
  s = String c rest -> Ascii.eqb c " " = false ->
  strip_spaces (repeat_string " " n ++ s) = s.
Proof.
  intros -> Hc. induction n as [|n IH]; simpl; [now rewrite Hc|exact IH].
Qed.

Lemma fmt_3d_inj (a b : Z) : fmt_3d a = fmt_3d b -> a = b.
Proof.
  unfold fmt_3d. intros H. apply (f_equal strip_spaces) in H.
  destruct (decimal_head a) as (ca & ra & Ea & Ha).
  destruct (decimal_head b) as (cb & rb & Eb & Hb).
  rewrite (strip_spaces_pad _ _ _ _ Ea Ha), (strip_spaces_pad _ _ _ _ Eb Hb) in H.
  apply DecimalZ.to_int_inj.
  destruct (to_int_proper a) as [A1 A2]. destruct (to_int_proper b) as [B1 B2].
  pose proof (NilZero.isi _ A1 A2) as Ia. pose proof (NilZero.isi _ B1 B2) as Ib.
  rewrite H in Ia. congruence.
Qed.

Lemma itemTag_inj (a b : Z) : itemTag a = itemTag b -> a = b.
Proof.
  unfold itemTag. intros H. apply fmt_3d_inj.
  cbn [String.append dquote] in H. injection H as H.
  eapply append_inv_tail. exact H.
Qed.

Example itemTag_7 : itemTag 7 = (".IP " ++ dquote ++ "  7." ++ dquote ++ " 5" ++ nl)%string.
Proof. reflexivity. Qed.

Example itemTag_12 : itemTag 12 = (".IP " ++ dquote ++ " 12." ++ dquote ++ " 5" ++ nl)%string.
Proof. reflexivity. Qed.

Example itemTag_1234 :
  itemTag 1234 = (".IP " ++ dquote ++ "1234." ++ dquote ++ " 5" ++ nl)%string.
Proof. reflexivity. Qed.

(** *** Reading the number of a marker back *)














(** The list with a table in its second item: the render panics at the
    first cell of the table, after the markers with 1 and 2. *)
Example ordered_list_with_a_table :
  forallb ordered_item (Children ordered_with_table) = true /\
  exists st,
    walk RenderNode None None ordered_with_table (NewRoffRenderer 0 0 0 0 0 0 0, []) =
      Crashed st /\
    flat_map (fun s => match marker_number s with Some k => [k] | None => [] end)
             (markup (snd st)) = [1%Z; 2%Z].
Proof. split; [reflexivity|]. eexists. split; reflexivity. Qed.

(** *** The claims about the inside-list flag and about definition lists *)

(** C4.  In the render of [nested_bullets] the paragraph [c] of the outer
    list's second item is entered after the nested list has closed, which
    cleared the inside-list flag: the paragraph writes the paragraph-break
    marker, and a newline on leaving, although the outer list is still
    open. *)
Theorem paragraph_break_after_nested_list :
  forall e1 e2 e3 e4 e5 e6 e7 : Z,
    visible (snd (final (Render (NewRoffRenderer e1 e2 e3 e4 e5 e6 e7) nested_bullets))) =
    [WriteString (".nh" ++ nl)%string;
     WriteString listTag;
       WriteString (".IP \(bu 2" ++ nl)%string; Write (bytes "a");
       WriteString listTag;
         WriteString (".IP \(bu 2" ++ nl)%string; Write (bytes "b"); WriteString nl;
       WriteString listCloseTag;
       WriteString nl;
       WriteString (".IP \(bu 2" ++ nl)%string;
         WriteString paraTag; Write (bytes "c"); WriteString crTag;
       WriteString nl;
     WriteString listCloseTag].
Proof. intros. reflexivity. Qed.

(** C9.  In the render of [two_definition_lists] the first list, of three
    items, leaves the term flag set; in the second list, of items term1,
    def1, term2, def2, it is then the items 2 and 4 that get the
    term-introducer marker, and the items 1 and 3 that get none. *)
Theorem definition_roles_carried_over :
  forall e1 e2 e3 e4 e5 e6 e7 : Z,
    visible (snd (final (Render (NewRoffRenderer e1 e2 e3 e4 e5 e6 e7)
                                two_definition_lists))) =
    [WriteString (".nh" ++ nl)%string;
     WriteString arglistTag; Write (bytes "term0"); WriteString nl;
     Write (bytes "def0a"); WriteString nl;
     WriteString arglistTag; Write (bytes "def0b"); WriteString nl;
     WriteString paraTag; Write (bytes "p"); WriteString crTag;
     Write (bytes "term1"); WriteString nl;
     WriteString arglistTag; Write (bytes "def1"); WriteString nl;
     Write (bytes "term2"); WriteString nl;
     WriteString arglistTag; Write (bytes "def2"); WriteString nl] /\
    defineTerm (fst (final (Render (NewRoffRenderer e1 e2 e3 e4 e5 e6 e7)
                                   two_definition_lists))) = true.
Proof. intros. split; reflexivity. Qed.

(** ** Further properties of the renderer *)

(** X1.  An image node writes nothing, and nothing below it is visited: the
    traversal of its subtree ends at once in the state it started in. *)
Theorem image_is_skipped (st : State) (parent prev : option Node)
        (lit dest : list byte) (lvl flags : Z) (hdr : bool) (cs : list Node) :
  walk RenderNode parent prev (mkNode Image lit lvl flags dest hdr cs) st = Finished st.
Proof. rewrite walk_eq. destruct st as [r w]. reflexivity. Qed.

(** X2.  The renderer only appends to its sink: what it does to the renderer's
    state, and what it writes, does not depend on what the sink already
    holds. *)
Theorem sink_is_write_only (w : Writer) (n : Node) (parent prev : option Node)
        (st : State) :
  walk RenderNode parent prev n (onto w st) =
  outcome_onto w (walk RenderNode parent prev n st).
Proof. apply walk_onto. Qed.

Lemma RenderNode_returns (st : State) (cur : NodeRef) (e : bool) :
  (exists s status, RenderNode st cur e = Return s status /\ status <> Terminate) \/
  (exists s, RenderNode st cur e = Panic s).
Proof.
  destruct st as [r w]. unfold RenderNode.
  destruct (Type_ (self cur)); render_cases;
    solve [ left; do 2 eexists; split; [reflexivity|discriminate]
          | right; eexists; reflexivity ].
Qed.

Lemma RenderNode_not_Terminate (st : State) (cur : NodeRef) (e : bool) :
  match RenderNode st cur e with
  | Return _ Terminate => False
  | _ => True
  end.
Proof.
  destruct (RenderNode_returns st cur e) as [(s & status & -> & H)|(s & ->)];
    [destruct status; try exact I; congruence|exact I].
Qed.

Lemma walk_siblings_not_Stopped (parent : Node) (cs : list Node) :
  Forall (fun c => forall parent prev st,
            match walk RenderNode parent prev c st with
            | Stopped _ => False
            | _ => True
            end) cs ->
  forall prev st,
    match walk_siblings RenderNode parent prev cs st with
    | Stopped _ => False
    | _ => True
    end.
Proof.
  induction 1 as [|c cs Hc _ IH]; intros prev st; simpl; [exact I|].
  specialize (Hc (Some parent) prev st).
  destruct (walk RenderNode (Some parent) prev c st); try exact Hc. apply IH.
Qed.

(** X3.  The outer render never ends its traversal early: no visit of
    [RenderNode] returns [Terminate], so the traversal of any tree runs to
    its end unless a visit panics. *)
Theorem render_never_terminates_early (n : Node) (parent prev : option Node)
        (st : State) :
  match walk RenderNode parent prev n st with
  | Stopped _ => False
  | _ => True
  end.
Proof.
  revert parent prev st.
  induction n as [t lit lvl flags dest hdr cs IH] using Node_nested_ind.
  intros parent prev st. rewrite walk_eq. cbv zeta.
  change (Children (mkNode t lit lvl flags dest hdr cs)) with cs.
  generalize (walk_siblings_not_Stopped (mkNode t lit lvl flags dest hdr cs) cs IH None).
  generalize (mkNode t lit lvl flags dest hdr cs) as n. intros n Hs.
  pose proof (RenderNode_not_Terminate st {| self := n; Parent := parent; Prev := prev |} true) as H1.
  destruct (RenderNode st _ true) as [s1 [| |]|s1]; try exact I; try contradiction.
  destruct (isContainer n); [|exact I].
  specialize (Hs s1). destruct (walk_siblings RenderNode n None cs s1) as [s2| |];
    try exact I; try contradiction.
  pose proof (RenderNode_not_Terminate s2 {| self := n; Parent := parent; Prev := prev |} false) as H3.
  destruct (RenderNode s2 _ false) as [s3 [| |]|s3]; try exact I; contradiction.
Qed.

(** A paragraph writes the paragraph marker on entering and a newline on
    leaving, and nothing at all while the inside-list flag is set. *)
Theorem paragraph_marks (r : roffRenderer) (w : Writer) (parent prev : option Node)
        (lit dest : list byte) (lvl flags : Z) (hdr : bool) (cs : list Node)
        (entering : bool) :
  RenderNode (r, w)
    {| self := mkNode Paragraph lit lvl flags dest hdr cs;
       Parent := parent; Prev := prev |} entering =
  if inList r then Return (r, w) GoToNext
  else Return (r, out w (if entering then paraTag else crTag)) GoToNext.
Proof. unfold RenderNode. cbn. destruct (inList r), entering; reflexivity. Qed.

(** A node of a type the renderer has no case for is a no-op: nothing is
    written to the sink and the traversal goes on. *)
Theorem unknown_type_is_a_no_op (st : State) (cur : NodeRef) (e : bool) :
  match Type_ (self cur) with
  | Del | HTMLBlock | HTMLSpan => RenderNode st cur e = Return st GoToNext
  | _ => True
  end.
Proof.
  destruct st as [r w]. unfold RenderNode. destruct (Type_ (self cur)); try exact I;
    reflexivity.
Qed.

(** The round-trip scenario: the title marker, the paragraph marker, the
    run "Some ", bold start, "bold", bold end, " and ", italic start, "em",
    italic end, " text.", the paragraph's newline, the list-indent marker,
    the item markers with 1 and 2 around "one" and "two", and the
    list-outdent marker. *)
Theorem scenario_render :
  forall e1 e2 e3 e4 e5 e6 e7 : Z,
    visible (snd (final (Render (NewRoffRenderer e1 e2 e3 e4 e5 e6 e7) scenario))) =
    [WriteString (".nh" ++ nl)%string;
     WriteString titleHeader; Write (bytes "Title");
     WriteString paraTag; Write (bytes "Some ");
     WriteString strongTag; Write (bytes "bold"); WriteString strongCloseTag;
     Write (bytes " and ");
     WriteString emphTag; Write (bytes "em"); WriteString emphCloseTag;
     Write (bytes " text."); WriteString crTag;
     WriteString listTag;
     WriteString (itemTag 1); Write (bytes "one"); WriteString nl;
     WriteString (itemTag 2); Write (bytes "two"); WriteString nl;
     WriteString listCloseTag].
Proof. intros. reflexivity. Qed.

(** A table row writes a newline on each of its two visits, on
    entering as well as on leaving. *)
Theorem table_row_newlines (r : roffRenderer) (w : Writer) (parent prev : option Node)
        (lit dest : list byte) (lvl flags : Z) (hdr : bool) (cs : list Node)
        (entering : bool) :
  RenderNode (r, w)
    {| self := mkNode TableRow lit lvl flags dest hdr cs;
       Parent := parent; Prev := prev |} entering =
  Return (r, out w nl) GoToNext.
Proof. reflexivity. Qed.

(** A text node inside a table cell is written between the
    cell-continuation markers [T{] and [T}] when its literal is longer than
    30 bytes, and bare otherwise; in both cases the literal is escaped. *)
Theorem text_in_table_cell (r : roffRenderer) (w : Writer) (prev : option Node)
        (lit dest : list byte) (lvl flags : Z) (hdr : bool) (cs : list Node)
        (header : bool) (s : string) (entering : bool) :
  RenderNode (r, w)
    {| self := mkNode Text lit lvl flags dest hdr cs;
       Parent := Some (cell header s); Prev := prev |} entering =
  Return (r, out (escapeSpecialChars
                    (out w (if (30 <? length lit)%nat then tableCellStart else "")) lit)
                 (if (30 <? length lit)%nat then tableCellEnd else "")) GoToNext.
Proof.
  unfold RenderNode. cbn [self Type_ Parent Literal cell NodeType_eqb].
  destruct (30 <? length lit)%nat; reflexivity.
Qed.

(** ** More about the escaping routine *)

Lemma backslash_is_special (c : byte) :
  needsBackslash c = false -> Byte.eqb c "\" = false.
Proof.
  intros H. destruct (Byte.eqb c "\") eqn:E; [|reflexivity].
  apply Byte.byte_dec_bl in E. subst c. discriminate.
Qed.

Lemma no_bare_special_escaped_from (p : list byte) (text : list byte) :
  p = [] \/ p = bytes "\&" ->
  no_bare_special (escaped_from p text) = true.
Proof.
  intros Hp. induction text as [|c text IH]; [reflexivity|].
  cbn [escaped_from]. destruct (needsBackslash c) eqn:Hc.
  - cbn [app no_bare_special Byte.eqb]. change (Byte.eqb "\" "\") with true. cbv iota.
    destruct (is_nil text); [exact IH|].
    destruct Hp as [-> | ->]; [exact IH|]. exact IH.
  - cbn [no_bare_special]. rewrite (backslash_is_special c Hc), Hc. exact IH.
Qed.

Lemma initialControl_prefix (text : list byte) :
  (if initialControl text then bytes "\&" else []) = [] \/
  (if initialControl text then bytes "\&" else []) = bytes "\&".
Proof. destruct (initialControl text); auto. Qed.

(** X4.  Nothing of the escape set ever reaches the stream bare: in the
    bytes written for any text, every [-], [_], [&], [\] and [~] is the
    second byte of a pair opened by a backslash, the zero-width prefixes
    included. *)
Theorem escape_leaves_no_bare_special (w : Writer) (text : list byte) :
  written (escapeSpecialChars w text) =
    written w ++ written (escapeSpecialChars [] text) /\
  no_bare_special (written (escapeSpecialChars [] text)) = true.
Proof.
  split.
  - rewrite escapeSpecialChars_app. apply written_app.
  - rewrite escapeSpecialChars_written. unfold escaped.
    pose proof (no_bare_special_escaped_from _ text (initialControl_prefix text)) as H.
    destruct (is_nil text); [exact H|].
    destruct (initialControl text); exact H.
Qed.

Lemma unescape_escape (text : list byte) :
  unescape (flat_map escape_byte text) = text.
Proof.
  induction text as [|c text IH]; [reflexivity|].
  cbn [flat_map]. unfold escape_byte at 1. destruct (needsBackslash c) eqn:Hc.
  - cbn [app unescape]. change (Byte.eqb "\" "\") with true. cbv iota. now rewrite IH.
  - cbn [app unescape]. rewrite (backslash_is_special c Hc). now rewrite IH.
Qed.

Lemma written_without_prefix (text : list byte) :
  initialControl text = false ->
  written (escapeSpecialChars [] text) = flat_map escape_byte text.
Proof.
  intros Hi. rewrite escapeSpecialChars_written. unfold escaped. rewrite Hi.
  destruct (is_nil text); apply escaped_from_no_prefix.
Qed.

(** X5.  Escaping loses nothing.  Taking the byte after each backslash, and
    every other byte as it is, gives back the text from the bytes handed to
    [w.Write], for every text; and, for a text that does not start with an
    apostrophe or a period, from the whole byte stream as well. *)
Theorem escape_round_trip (text : list byte) :
  unescape (data_written (escapeSpecialChars [] text)) = text /\
  (initialControl text = false ->
   unescape (written (escapeSpecialChars [] text)) = text).
Proof.
  split.
  - unfold escapeSpecialChars. rewrite escapeFrom_data. apply unescape_escape.
  - intros Hi. rewrite (written_without_prefix text Hi). apply unescape_escape.
Qed.

Lemma escape_round_trip_witness :
  initialControl (bytes "a_b --x\~y&") = false /\
  unescape (data_written (escapeSpecialChars [] (bytes "a_b --x\~y&"))) =
    bytes "a_b --x\~y&" /\
  unescape (written (escapeSpecialChars [] (bytes "a_b --x\~y&"))) = bytes "a_b --x\~y&".
Proof.
  split; [reflexivity|].
  destruct (escape_round_trip (bytes "a_b --x\~y&")) as [Hdata Hall].
  split; [exact Hdata|apply Hall; reflexivity].
Defined.

Lemma initialControl_app (a b : list byte) :
  initialControl a = false -> initialControl b = false ->
  initialControl (a ++ b) = false.
Proof. destruct a; simpl; auto. Qed.

(** X6.  Escaping goes through concatenation: for two texts neither of
    which starts with an apostrophe or a period, the bytes written for the
    one followed by the other are the bytes written for the one followed by
    the bytes written for the other. *)
Theorem escape_of_concatenation (a b : list byte) :
  initialControl a = false -> initialControl b = false ->
  written (escapeSpecialChars [] (a ++ b)) =
  written (escapeSpecialChars [] a) ++ written (escapeSpecialChars [] b).
Proof.
  intros Ha Hb.
  rewrite !written_without_prefix by auto using initialControl_app.
  apply flat_map_app.
Qed.

Lemma escape_of_concatenation_witness :
  written (escapeSpecialChars [] (bytes "man-" ++ bytes "page_1")) =
  written (escapeSpecialChars [] (bytes "man-"))
  ++ written (escapeSpecialChars [] (bytes "page_1")).
Proof. apply escape_of_concatenation; reflexivity. Defined.

Lemma escaped_from_length (p text : list byte) :
  length text <= length (escaped_from p text) /\
  (text <> [] ->
   length (escaped_from p text) + length p <= (2 + length p) * length text).
Proof.
  induction text as [|c text [IHlo IHhi]]; [split; [reflexivity|congruence]|].
  cbn [escaped_from]. destruct (needsBackslash c).
  - rewrite !length_app. cbn [length].
    destruct text as [|c' text].
    + cbn [is_nil escaped_from length]. split; [lia|intros _; lia].
    + cbn [is_nil]. specialize (IHhi ltac:(discriminate)).
      cbn [length] in *. split; [lia|intros _; nia].
  - cbn [length]. destruct text as [|c' text].
    + cbn [escaped_from length]. split; [lia|intros _; lia].
    + specialize (IHhi ltac:(discriminate)).
      cbn [length] in *. split; [lia|intros _; nia].
Qed.

(** X7.  The bytes written for a text are never fewer than the text has and
    never more than four times as many. *)
Theorem escape_length_bounds (text : list byte) :
  length text <= length (written (escapeSpecialChars [] text)) <= 4 * length text.
Proof.
  rewrite escapeSpecialChars_written. unfold escaped.
  set (p := if initialControl text then bytes "\&" else []).
  assert (Hp : length p <= 2) by (unfold p; destruct (initialControl text); simpl; lia).
  destruct (escaped_from_length p text) as [Hlo Hhi].
  destruct text as [|c text]; [simpl; lia|].
  specialize (Hhi ltac:(discriminate)). cbn [is_nil]. rewrite length_app.
  cbn [length] in *. split; [lia|nia].
Qed.

(** ** Panics *)

Lemma RenderNode_panics (r : roffRenderer) (w : Writer) (cur : NodeRef) (e : bool) :
  (panics r cur e = true /\ RenderNode (r, w) cur e = Panic (r, w)) \/
  (panics r cur e = false /\
   exists r' w' status, RenderNode (r, w) cur e = Return (r', w') status).
Proof.
  unfold RenderNode, panics.
  destruct (strings_Repeat_columns cur) as [format Hf].
  destruct (Type_ (self cur)); rewrite ?Hf; render_cases;
    solve [ left; split; reflexivity
          | right; split; [reflexivity|do 3 eexists; reflexivity] ].
Qed.

(** X8.  For a node of any of the node types blackfriday names (the type
    [NodeType]), [RenderNode] panics at exactly four kinds of visit: a text
    node whose parent is nil, entering a table cell whose previous sibling
    is nil, and leaving an ordered list or entering an item of one while
    the counter stack is empty.  A panic leaves the renderer and the sink
    as they were before the call; in particular entering a table never
    panics, since the column count handed to [strings.Repeat] is never
    negative.  A node whose type field holds no named type, which the
    parser never builds and [NodeType] does not contain, is outside this
    statement: the default branch would call [node.Type.String()] on it. *)
Theorem RenderNode_panics_exactly (r : roffRenderer) (w : Writer) (cur : NodeRef)
        (entering : bool) :
  match RenderNode (r, w) cur entering with
  | Panic st => panics r cur entering = true /\ st = (r, w)
  | Return _ _ => panics r cur entering = false
  end.
Proof.
  destruct (RenderNode_panics r w cur entering) as [[Hp ->]|[Hp (r' & w' & st & ->)]].
  - split; [exact Hp|reflexivity].
  - exact Hp.
Qed.

(** X9.  The column counter returns 0 or 1 for every node, never more and
    never a negative number; for a table that starts with a head section
    whose first child is a row it returns 0, whatever the cells of that
    row. *)
Theorem countColumns_at_most_one :
  (forall cur : NodeRef, countColumns cur = 0%Z \/ countColumns cur = 1%Z) /\
  (forall (parent prev : option Node)
          (l1 d1 l2 d2 l3 d3 : list byte) (v1 f1 v2 f2 v3 f3 : Z) (h1 h2 h3 : bool)
          (cells rows sections : list Node),
      countColumns
        {| self := mkNode Table l1 v1 f1 d1 h1
                     (mkNode TableHead l2 v2 f2 d2 h2
                        (mkNode TableRow l3 v3 f3 d3 h3 cells :: rows) :: sections);
           Parent := parent; Prev := prev |} = 0%Z).
Proof. split; [exact countColumns_range|intros; reflexivity]. Qed.

(** ** Well-formed documents *)

(** X10.  A document whose content is well formed (no item outside a list,
    under every list only items with the list's own ordered bit, no table
    cell) is rendered to its end: no visit panics, the traversal is not cut
    short, and the counter stack is afterwards what it was before. *)
Theorem well_formed_document_renders
        (lit dest : list byte) (lvl flags : Z) (hdr : bool) (cs : list Node)
        (parent prev : option Node) (r : roffRenderer) (w : Writer) :
  forallb well_formed cs = true ->
  exists r' w',
    walk RenderNode parent prev (mkNode Document lit lvl flags dest hdr cs) (r, w) =
      Finished (r', w') /\
    ListCounters r' = ListCounters r.
Proof.
  intros Hwf. rewrite walk_eq. cbv zeta.
  unfold RenderNode at 1. cbn [self Type_ Children isContainer].
  destruct (siblings_keep_counters cs (well_formed_keeps_counters cs Hwf)
              (mkNode Document lit lvl flags dest hdr cs) None r w)
    as (r' & w' & -> & Hr).
  exists r', w'. split; [reflexivity|exact Hr].
Qed.

Lemma well_formed_document_renders_witness :
  exists r' w',
    walk RenderNode None None
         (mkNode Document [] 0 0 [] false (Children scenario ++ Children nested_bullets))
         (NewRoffRenderer 0 0 0 0 0 0 0, []) = Finished (r', w') /\
    ListCounters r' = ListCounters (NewRoffRenderer 0 0 0 0 0 0 0).
Proof. apply well_formed_document_renders. reflexivity. Defined.

(** ** The extension bits *)

Lemma RenderNode_extensions (st : State) (cur : NodeRef) (e : bool) :
  extensions (fst (state_of (RenderNode st cur e))) = extensions (fst st).
Proof.
  destruct st as [r w]. unfold RenderNode.
  destruct (Type_ (self cur)); render_cases; reflexivity.
Qed.

Lemma lor_absorbs (a f : Z) : Z.land (Z.lor a f) f = f.
Proof.
  apply Z.bits_inj'. intros n Hn. rewrite Z.land_spec, Z.lor_spec.
  destruct (Z.testbit a n), (Z.testbit f n); reflexivity.
Qed.

Lemma lor_keeps (a b f : Z) : Z.land a f = f -> Z.land (Z.lor a b) f = f.
Proof.
  intros H. apply Z.bits_inj'. intros n Hn.
  assert (Hb : Z.testbit (Z.land a f) n = Z.testbit f n) by now rewrite H.
  rewrite Z.land_spec in *. rewrite Z.lor_spec.
  destruct (Z.testbit a n), (Z.testbit b n), (Z.testbit f n); simpl in *; congruence.
Qed.

(** X11.  Whatever bits blackfriday gives its flags, a new renderer reports
    every one of the seven extensions it asks for, and no traversal changes
    what [GetExtensions] reports. *)
Theorem extensions_are_set_and_kept (e1 e2 e3 e4 e5 e6 e7 : Z) :
  Forall (fun f => Z.land (GetExtensions (NewRoffRenderer e1 e2 e3 e4 e5 e6 e7)) f = f)
         [e1; e2; e3; e4; e5; e6; e7] /\
  (forall (n : Node) (parent prev : option Node) (st : State),
      GetExtensions (fst (final (walk RenderNode parent prev n st))) =
      GetExtensions (fst st)).
Proof.
  split.
  - unfold GetExtensions, NewRoffRenderer. cbn [extensions].
    repeat constructor;
      repeat (first [apply lor_absorbs | apply lor_keeps]).
  - intros n parent prev st. unfold GetExtensions.
    apply (walk_related RenderNode
             (fun a b => extensions (fst b) = extensions (fst a))).
    + reflexivity.
    + intros a b c H1 H2. congruence.
    + intros s cur e. apply RenderNode_extensions.
Qed.

(** ** The term flag of definition lists *)

Lemma RenderNode_defineTerm (st : State) (cur : NodeRef) (e : bool) :
  defineTerm (fst (state_of (RenderNode st cur e))) =
  xorb (defineTerm (fst st)) (flips_term (cur, e)).
Proof.
  destruct st as [r w]. unfold RenderNode, flips_term. cbn [fst snd].
  destruct (Type_ (self cur)); cbn [NodeType_eqb andb];
    rewrite ?xorb_false_r; render_cases;
    cbn [state_of fst defineTerm set_defineTerm set_ListCounters set_inList
         set_firstHeader negb andb];
    rewrite ?xorb_false_r; try reflexivity.
  all: destruct (defineTerm r); try reflexivity; try discriminate.
Qed.

(** X12.  The term flag of definition lists is flipped by entering an item
    that carries the definition bit and not the ordered bit, and by nothing
    else: after any sequence of visits it differs from what it was exactly
    when the sequence holds an odd number of such visits.  In particular
    leaving a list never resets it. *)
Theorem defineTerm_is_a_parity (visits : list (NodeRef * bool)) (st : State) :
  defineTerm (fst (after_visits visits st)) =
  xorb (defineTerm (fst st)) (Nat.odd (length (filter flips_term visits))).
Proof.
  revert st. induction visits as [|v visits IH]; intros st.
  - simpl. now rewrite xorb_false_r.
  - unfold after_visits in *. cbn [fold_left filter]. rewrite IH.
    rewrite RenderNode_defineTerm.
    replace (fst v, snd v) with v by (destruct v; reflexivity).
    destruct (flips_term v); cbn [length].
    + rewrite Nat.odd_succ, <- Nat.negb_odd.
      destruct (defineTerm (fst st)), (Nat.odd (length (filter flips_term visits)));
        reflexivity.
    + now rewrite xorb_false_r.
Qed.

(** ** Indentation *)

Lemma indent_app (w1 w2 : Writer) : indent (w1 ++ w2) = (indent w1 + indent w2)%Z.
Proof.
  unfold indent. rewrite markup_app, map_app.
  induction (map indent_change (markup w1)) as [|x l IH]; simpl; [reflexivity|].
  rewrite IH. lia.
Qed.

Lemma indent_out (w : Writer) (s : string) :
  indent (out w s) = (indent w + indent_change s)%Z.
Proof.
  unfold out, io_WriteString. rewrite indent_app. unfold indent. simpl. lia.
Qed.

Lemma indent_escape (w : Writer) (text : list byte) :
  indent (escapeSpecialChars w text) = indent w.
Proof.
  unfold escapeSpecialChars, indent.
  destruct (escapeFrom_markup text 0 w) as [n ->]. rewrite map_app.
  generalize (if initialControl text then n else 0) as k. intros k.
  induction (map indent_change (markup w)) as [|x l IH]; simpl.
  - induction k as [|k IHk]; simpl; [reflexivity|exact IHk].
  - rewrite IH. reflexivity.
Qed.

Lemma strings_Repeat_no_indent (count : Z) (format tail : string) :
  strings_Repeat "l " count = Some format ->
  indent_change tail = 0%Z ->
  indent_change (format ++ tail) = 0%Z.
Proof.
  unfold strings_Repeat. destruct (count <? 0)%Z; [discriminate|].
  intros [= <-] Ht. destruct (Z.to_nat count) as [|k]; simpl; [exact Ht|reflexivity].
Qed.

Ltac indent_simpl :=
  rewrite ?indent_out, ?indent_escape, ?indent_out;
  cbn [indent_change String.eqb Ascii.eqb Bool.eqb String.append
       listTag quoteTag codeTag listCloseTag codeCloseTag].

(** What one visit does to the indentation. *)
Lemma RenderNode_indent (r : roffRenderer) (w : Writer) (cur : NodeRef) (e : bool) :
  RenderNode (r, w) cur e = Panic (r, w) \/
  exists r' w' status,
    RenderNode (r, w) cur e = Return (r', w') status /\
    indent w' = (indent w + (if e then opens (self cur) else - opens (self cur)))%Z /\
    status <> Terminate /\
    (status = GoToNext \/ opens (self cur) = 0%Z).
Proof.
  unfold RenderNode, opens.
  destruct (strings_Repeat_columns cur) as [format Hf].
  destruct (Type_ (self cur)); rewrite ?Hf; render_cases;
    try (left; reflexivity);
    right; do 3 eexists; (split; [reflexivity|]);
    (split; [|split; [discriminate|auto]]); indent_simpl.
  all: try lia.
  all: try reflexivity.
  all: try rewrite !(strings_Repeat_no_indent _ _ _ Hf) by reflexivity; cbn; lia.
Qed.

Lemma opens_nonneg (n : Node) : (0 <= opens n)%Z.
Proof.
  unfold opens. destruct (Type_ n); try lia.
  destruct (has_flag (ListFlags n) ListTypeDefinition); lia.
Qed.

Lemma opens_container (n : Node) : isContainer n = false -> opens n = 0%Z.
Proof. unfold isContainer, opens. destruct (Type_ n); congruence. Qed.

Lemma walk_siblings_indent (parent : Node) (cs : list Node) :
  Forall (fun c => forall parent prev r w,
            indent_kept w (walk RenderNode parent prev c (r, w))) cs ->
  forall prev r w, indent_kept w (walk_siblings RenderNode parent prev cs (r, w)).
Proof.
  induction 1 as [|c cs Hc _ IH]; intros prev r w; simpl; [reflexivity|].
  specialize (Hc (Some parent) prev r w).
  destruct (walk RenderNode (Some parent) prev c (r, w)) as [[r1 w1]| |]; try exact Hc.
  simpl in Hc. specialize (IH (Some c) r1 w1).
  destruct (walk_siblings RenderNode parent (Some c) cs (r1, w1)); simpl in *; lia.
Qed.

Lemma walk_indent (n : Node) :
  forall parent prev r w, indent_kept w (walk RenderNode parent prev n (r, w)).
Proof.
  induction n as [t lit lvl flags dest hdr cs IH] using Node_nested_ind.
  intros parent prev r w. rewrite walk_eq. cbv zeta.
  change (Children (mkNode t lit lvl flags dest hdr cs)) with cs.
  generalize (walk_siblings_indent (mkNode t lit lvl flags dest hdr cs) cs IH None).
  generalize (mkNode t lit lvl flags dest hdr cs) as n. intros n Hs.
  pose proof (opens_nonneg n) as Hn.
  destruct (RenderNode_indent r w {| self := n; Parent := parent; Prev := prev |} true)
    as [-> | (r1 & w1 & st1 & -> & H1 & T1 & G1)]; [simpl; lia|].
  cbn [self] in *.
  destruct st1; [| |congruence].
  - destruct (isContainer n) eqn:Hc.
    + specialize (Hs r1 w1).
      destruct (walk_siblings RenderNode n None cs (r1, w1)) as [[r2 w2]|[r2 w2]|[r2 w2]];
        simpl in Hs; [|simpl; lia|simpl; lia].
      destruct (RenderNode_indent r2 w2 {| self := n; Parent := parent; Prev := prev |} false)
        as [-> | (r3 & w3 & st3 & -> & H3 & T3 & G3)]; [simpl; lia|].
      cbn [self] in *. destruct st3; try congruence; simpl; lia.
    + rewrite (opens_container n Hc) in H1. simpl. lia.
  - destruct G1 as [G1|G1]; [discriminate|]. rewrite G1 in H1. simpl. lia.
Qed.

(** X13.  The relative indentation is balanced.  A traversal that runs to
    its end writes as many [.RE] requests as [.RS] requests, whatever the
    tree: lists, block quotes and code blocks leave the indentation where
    they found it; and a traversal that ends in a panic has never written
    more [.RE] than [.RS]. *)
Theorem indentation_is_balanced (n : Node) (parent prev : option Node)
        (r : roffRenderer) (w : Writer) :
  match walk RenderNode parent prev n (r, w) with
  | Finished st => indent (snd st) = indent w
  | Stopped st | Crashed st => (indent w <= indent (snd st))%Z
  end.
Proof. exact (walk_indent n parent prev r w). Qed.

(** ** Paragraphs in lists *)

Lemma paragraph_breaks_app (w1 w2 : Writer) :
  paragraph_breaks (w1 ++ w2) = paragraph_breaks w1 + paragraph_breaks w2.
Proof. unfold paragraph_breaks. rewrite markup_app. apply count_occ_app. Qed.

Lemma paragraph_breaks_out (w : Writer) (s : string) :
  paragraph_breaks (out w s) =
  paragraph_breaks w + (if (s =? paraTag)%string then 1 else 0).
Proof.
  unfold out, io_WriteString. rewrite paragraph_breaks_app. f_equal.
  unfold paragraph_breaks. cbn [markup flat_map app count_occ].
  destruct (string_dec s paraTag) as [->|Hne].
  - now rewrite String.eqb_refl.
  - apply String.eqb_neq in Hne. now rewrite Hne.
Qed.

Lemma paragraph_breaks_escape (w : Writer) (text : list byte) :
  paragraph_breaks (escapeSpecialChars w text) = paragraph_breaks w.
Proof.
  unfold escapeSpecialChars, paragraph_breaks.
  destruct (escapeFrom_markup text 0 w) as [n ->]. rewrite count_occ_app.
  generalize (if initialControl text then n else 0) as k. intros k.
  replace (count_occ string_dec (repeat "\&" k) paraTag) with 0; [lia|].
  induction k as [|k IH]; simpl; [reflexivity|exact IH].
Qed.

Lemma strings_Repeat_no_break (count : Z) (format tail : string) :
  strings_Repeat "l " count = Some format ->
  (tail =? paraTag)%string = false ->
  (format ++ tail =? paraTag)%string = false.
Proof.
  unfold strings_Repeat. destruct (count <? 0)%Z; [discriminate|].
  intros [= <-] Ht. destruct (Z.to_nat count) as [|k]; simpl; [exact Ht|reflexivity].
Qed.

(** Outside the visits of list nodes, a set inside-list flag stays set and
    no paragraph-break marker is written. *)
Lemma RenderNode_in_list (r : roffRenderer) (w : Writer) (cur : NodeRef) (e : bool) :
  NodeType_eqb (Type_ (self cur)) List = false ->
  inList r = true ->
  inList (fst (state_of (RenderNode (r, w) cur e))) = true /\
  paragraph_breaks (snd (state_of (RenderNode (r, w) cur e))) = paragraph_breaks w.
Proof.
  intros Ht Hin. unfold RenderNode.
  destruct (strings_Repeat_columns cur) as [format Hf].
  destruct (Type_ (self cur)); try discriminate Ht; rewrite ?Hf, ?Hin; render_cases;
    cbn [state_of fst snd inList set_ListCounters set_defineTerm set_firstHeader];
    (split; [assumption|]);
    rewrite ?paragraph_breaks_out, ?paragraph_breaks_escape, ?paragraph_breaks_out;
    try rewrite !(strings_Repeat_no_break _ _ _ Hf) by reflexivity;
    cbn; lia.
Qed.

Lemma no_list_node (t : NodeType) lit lvl flags dest hdr (cs : list Node) :
  no_list (mkNode t lit lvl flags dest hdr cs) = true ->
  NodeType_eqb t List = false /\ forallb no_list cs = true.
Proof.
  cbn [no_list Type_ Children]. intros H. apply andb_prop in H as [H1 H2].
  split; [|exact H2]. now destruct (NodeType_eqb t List).
Qed.

Lemma walk_siblings_in_list (parent : Node) (cs : list Node) :
  Forall (fun c => no_list c = true ->
                   forall parent prev st, inList (fst st) = true ->
                     stays_in_list st (final (walk RenderNode parent prev c st))) cs ->
  forallb no_list cs = true ->
  forall prev st, inList (fst st) = true ->
    stays_in_list st (final (walk_siblings RenderNode parent prev cs st)).
Proof.
  induction 1 as [|c cs Hc _ IH]; intros Hall prev st Hin; simpl.
  - split; [exact Hin|reflexivity].
  - cbn [forallb] in Hall. apply andb_prop in Hall as [Hnc Hall].
    specialize (Hc Hnc (Some parent) prev st Hin).
    destruct (walk RenderNode (Some parent) prev c st) as [s1| |]; try exact Hc.
    destruct Hc as [Hin1 Hp1]. simpl in Hin1, Hp1.
    destruct (IH Hall (Some c) s1 Hin1) as [Hin2 Hp2].
    split; [exact Hin2|congruence].
Qed.

Lemma walk_in_list (n : Node) :
  no_list n = true ->
  forall parent prev st, inList (fst st) = true ->
    stays_in_list st (final (walk RenderNode parent prev n st)).
Proof.
  induction n as [t lit lvl flags dest hdr cs IH] using Node_nested_ind.
  intros Hn parent prev [r w] Hin. apply no_list_node in Hn as [Ht Hcs].
  rewrite walk_eq. cbv zeta.
  change (Children (mkNode t lit lvl flags dest hdr cs)) with cs.
  pose proof (walk_siblings_in_list (mkNode t lit lvl flags dest hdr cs) cs IH Hcs None)
    as Hs.
  assert (Hstep : forall r0 w0 e, inList r0 = true ->
            stays_in_list (r0, w0)
              (state_of (RenderNode (r0, w0)
                 {| self := mkNode t lit lvl flags dest hdr cs;
                    Parent := parent; Prev := prev |} e))).
  { intros r0 w0 e H0. apply RenderNode_in_list; assumption. }
  revert Hs Hstep. generalize (mkNode t lit lvl flags dest hdr cs) as n. intros n Hs Hstep.
  cbn [fst] in Hin. pose proof (Hstep r w true Hin) as [H1 P1].
  destruct (RenderNode (r, w) _ true) as [[r1 w1] [| |]|[r1 w1]];
    unfold stays_in_list; cbn [state_of fst snd final] in *; try (split; assumption).
  destruct (isContainer n); [|split; assumption].
  destruct (Hs (r1, w1) H1) as [H2 P2].
  destruct (walk_siblings RenderNode n None cs (r1, w1)) as [[r2 w2]|[r2 w2]|[r2 w2]];
    cbn [final fst snd] in *; try (split; [assumption|congruence]).
  pose proof (Hstep r2 w2 false H2) as [H3 P3].
  destruct (RenderNode (r2, w2) _ false) as [[r3 w3] [| |]|[r3 w3]];
    cbn [state_of fst snd final] in *; split; congruence.
Qed.

(** X14.  In a list that holds no list of its own no paragraph writes its
    paragraph tag: the traversal of a list node whose items have no list
    below them makes no [io.WriteString] call of [paraTag], whatever
    paragraphs the items hold and however the traversal ends.  The count is
    of calls of the paragraph tag itself: a code block or a block quote in
    an item still writes its own tag, which begins with the same [.PP]
    request. *)
Theorem flat_list_has_no_paragraph_break
        (lit dest : list byte) (lvl flags : Z) (hdr : bool) (items : list Node)
        (parent prev : option Node) (r : roffRenderer) (w : Writer) :
  forallb no_list items = true ->
  paragraph_breaks
    (snd (final (walk RenderNode parent prev
                      (mkNode List lit lvl flags dest hdr items) (r, w)))) =
  paragraph_breaks w.
Proof.
  intros Hitems. rewrite walk_eq. cbv zeta.
  unfold RenderNode at 1. cbn [self Type_ ListFlags Children isContainer].
  set (L := mkNode List lit lvl flags dest hdr items).
  assert (Hs : forall r1 w1, inList r1 = true ->
            paragraph_breaks w1 = paragraph_breaks w ->
            paragraph_breaks
              (snd (final
                 match walk_siblings RenderNode L None items (r1, w1) with
                 | Finished s2 =>
                     match RenderNode s2 {| self := L; Parent := parent; Prev := prev |}
                             false with
                     | Return s3 GoToNext | Return s3 SkipChildren => Finished s3
                     | Return s3 Terminate => Stopped s3
                     | Panic s3 => Crashed s3
                     end
                 | Stopped s0 => Stopped s0
                 | Crashed s0 => Crashed s0
                 end)) = paragraph_breaks w).
  { intros r1 w1 H1 P1.
    destruct (walk_siblings_in_list L items
                (proj2 (Forall_forall _ _) (fun c _ => walk_in_list c)) Hitems
                None (r1, w1) H1) as [H2 P2].
    destruct (walk_siblings RenderNode L None items (r1, w1)) as [[r2 w2]|[r2 w2]|[r2 w2]];
      cbn [final fst snd] in *; try congruence.
    unfold RenderNode, L. cbn [self Type_ ListFlags].
    destruct (has_flag flags ListTypeDefinition), (has_flag flags ListTypeOrdered);
      try destruct (ListCounters r2);
      cbn [final snd]; rewrite ?paragraph_breaks_out; cbn; lia. }
  destruct (has_flag flags ListTypeDefinition), (has_flag flags ListTypeOrdered);
    apply Hs; try reflexivity; rewrite paragraph_breaks_out; cbn; lia.
Qed.

Lemma flat_list_has_no_paragraph_break_witness :
  paragraph_breaks
    (snd (final (walk RenderNode None None
                      (mkNode List [] 0 0 [] false
                              [item_of 0 [paragraph "one"]; item_of 0 [paragraph "two"]])
                      (NewRoffRenderer 0 0 0 0 0 0 0, [])))) =
  paragraph_breaks [].
Proof. apply flat_list_has_no_paragraph_break. reflexivity. Defined.

End md2man.
